(** * the_snake: a shallow embedding of [the_snake.py] and its properties

    The game state of the program (the snake, the apple) is modelled with
    records, the calls to Python's [random] module with a state monad over a
    tape of raw random numbers, and the exceptions the code can raise
    ([exit()], an index out of range) with an error result.  Drawing, the
    window and the clock do not change the game state and are left out. *)

From Stdlib Require Import ZArith List Bool Lia.
Import ListNotations.
Open Scope Z_scope.

(** ** Python values *)

(** A tuple [(x, y)] of two ints: a position in pixels, or a direction. *)
Definition Pair : Type := Z * Z.

(** A tuple [(R, G, B)]. *)
Definition Color : Type := Z * Z * Z.

(** [a == b] on tuples of two ints. *)
Definition pair_eqb (a b : Pair) : bool :=
  (fst a =? fst b) && (snd a =? snd b).

(** [c in l] for a list of tuples. *)
Definition mem (c : Pair) (l : list Pair) : bool :=
  existsb (pair_eqb c) l.

(** [len(l)]. *)
Definition len {A : Type} (l : list A) : Z := Z.of_nat (List.length l).

(** ** Constants of the game *)

Definition SCREEN_WIDTH : Z := 640.
Definition SCREEN_HEIGHT : Z := 480.
Definition GRID_SIZE : Z := 20.
Definition GRID_WIDTH : Z := SCREEN_WIDTH / GRID_SIZE.
Definition GRID_HEIGHT : Z := SCREEN_HEIGHT / GRID_SIZE.

Definition UP : Pair := (0, -1).
Definition DOWN : Pair := (0, 1).
Definition LEFT : Pair := (-1, 0).
Definition RIGHT : Pair := (1, 0).

Definition BOARD_BACKGROUND_COLOR : Color := (0, 0, 0).
Definition SNAKE_COLOR : Color := (0, 255, 0).
Definition APPLE_COLOR : Color := (255, 0, 0).

(** ** Effects: exceptions and the random generator *)

Inductive Exn : Type :=
| SystemExit      (* exit() *)
| IndexError      (* list index out of range *)
| OutOfEntropy    (* the tape of random numbers is used up *)
| OutOfFuel.      (* a while loop was cut off by the model *)

Inductive Result (A : Type) : Type :=
| Ok (a : A)
| Raise (e : Exn).
Arguments Ok {A} a.
Arguments Raise {A} e.

(** The state of the generator: the raw numbers it is still going to draw. *)
Definition Tape : Type := list Z.

Definition M (A : Type) : Type := Tape -> Result (A * Tape).

Definition ret {A : Type} (a : A) : M A := fun t => Ok (a, t).

Definition raise {A : Type} (e : Exn) : M A := fun _ => Raise e.

Definition bind {A B : Type} (m : M A) (k : A -> M B) : M B :=
  fun t => match m t with
           | Ok (a, t') => k a t'
           | Raise e => Raise e
           end.

Notation "x <- m ;; k" := (bind m (fun x => k))
  (at level 61, m at next level, right associativity).
Notation "' p <- m ;; k" := (bind m (fun x => let p := x in k))
  (at level 61, p pattern, m at next level, right associativity).

Module random.

(** A number in [0, n): the next raw draw, reduced modulo [n]. *)
Definition randbelow (n : Z) : M Z :=
  fun t => match t with
           | [] => Raise OutOfEntropy
           | r :: t' => Ok (r mod n, t')
           end.

(** [random.randint(a, b)]: an int in [a, b], both ends included. *)
Definition randint (a b : Z) : M Z :=
  k <- randbelow (b - a + 1) ;; ret (a + k).

(** [random.choice(seq)]: [seq[i]] for a random index [i]. *)
Definition choice {A : Type} (seq : list A) : M A :=
  i <- randbelow (len seq) ;;
  match nth_error seq (Z.to_nat i) with
  | Some x => ret x
  | None => raise IndexError
  end.

End random.

(** ** Game objects *)

(** The attributes of [GameObject]. *)
Record GameObject : Type := mkGameObject {
  position : Pair;
  body_color : option Color
}.

(** [GameObject.__init__(position=None, body_color=None)]. *)
Definition GameObject_init (pos : option Pair) (color : option Color)
  : GameObject :=
  {| position := match pos with
                 | Some p => p
                 | None => (SCREEN_WIDTH / 2, SCREEN_HEIGHT / 2)
                 end;
     body_color := color |}.

(** [Apple] adds no attribute to [GameObject]. *)
Definition Apple : Type := GameObject.

(** [Apple.randomize_position]. *)
Definition randomize_position (self : Apple) : M Apple :=
  x <- random.randint 0 (GRID_WIDTH - 1) ;;
  let x := x * GRID_SIZE in
  y <- random.randint 0 (GRID_HEIGHT - 1) ;;
  let y := y * GRID_SIZE in
  ret {| position := (x, y); body_color := body_color self |}.

(** [Apple.__init__]. *)
Definition Apple_init : M Apple :=
  let self := GameObject_init None None in
  let self := {| position := position self;
                 body_color := Some APPLE_COLOR |} in
  randomize_position self.

(** The attributes of [Snake]: those of [GameObject] and its own. *)
Record Snake : Type := mkSnake {
  base : GameObject;
  positions : list Pair;
  direction : Pair;
  next_direction : option Pair;
  length : Z;
  last : option Pair
}.

(** [Snake.__init__]. *)
Definition Snake_init : Snake :=
  let self := GameObject_init None None in
  {| base := {| position := position self;
                body_color := Some SNAKE_COLOR |};
     positions := [position self];
     direction := RIGHT;
     next_direction := None;
     length := 1;
     last := None |}.

(** [Snake.update_direction]. *)
Definition update_direction (self : Snake) : Snake :=
  match next_direction self with
  | Some d =>
      {| base := base self;
         positions := positions self;
         direction := d;
         next_direction := None;
         length := length self;
         last := last self |}
  | None => self
  end.

(** [Snake.get_head_position]: [self.positions[0]]. *)
Definition get_head_position (self : Snake) : M Pair :=
  match positions self with
  | [] => raise IndexError
  | head :: _ => ret head
  end.

(** [Snake.reset]. *)
Definition reset (self : Snake) : M Snake :=
  d <- random.choice [UP; DOWN; LEFT; RIGHT] ;;
  ret {| base := base self;
         positions := [(SCREEN_WIDTH / 2, SCREEN_HEIGHT / 2)];
         direction := d;
         next_direction := None;
         length := 1;
         last := last self |}.

(** The position [move] computes for the new head. *)
Definition new_position (head dir : Pair) : Pair :=
  let '(head_x, head_y) := head in
  let '(dx, dy) := dir in
  ((head_x + dx * GRID_SIZE) mod SCREEN_WIDTH,
   (head_y + dy * GRID_SIZE) mod SCREEN_HEIGHT).

(** [self.positions[-1] if len(self.positions) > 0 else None]. *)
Definition last_position (ps : list Pair) : option Pair :=
  if 0 <? len ps then nth_error ps (Z.to_nat (len ps - 1)) else None.

(** [Snake.move]. *)
Definition move (self : Snake) : M Snake :=
  head <- get_head_position self ;;
  let new := new_position head (direction self) in
  if mem new (tl (positions self)) then reset self
  else
    let last' := last_position (positions self) in
    let inserted := new :: positions self in
    ret {| base := base self;
           positions := if len inserted >? length self
                        then removelast inserted else inserted;
           direction := direction self;
           next_direction := next_direction self;
           length := length self;
           last := last' |}.

(** ** Input *)

Inductive Key : Type := K_UP | K_DOWN | K_LEFT | K_RIGHT | K_other.

Definition key_eqb (a b : Key) : bool :=
  match a, b with
  | K_UP, K_UP | K_DOWN, K_DOWN | K_LEFT, K_LEFT | K_RIGHT, K_RIGHT
  | K_other, K_other => true
  | _, _ => false
  end.

(** What [pygame.event.get()] yields: the type of the event and, for a
    key press, the key. *)
Inductive Event : Type :=
| QUIT
| KEYDOWN (key : Key)
| other_event.

(** [snake.next_direction = d]. *)
Definition set_next_direction (snake : Snake) (d : Pair) : Snake :=
  {| base := base snake;
     positions := positions snake;
     direction := direction snake;
     next_direction := Some d;
     length := length snake;
     last := last snake |}.

(** The body of the loop of [handle_keys] for a key press. *)
Definition handle_keydown (key : Key) (snake : Snake) : Snake :=
  if key_eqb key K_UP && negb (pair_eqb (direction snake) DOWN)
  then set_next_direction snake UP
  else if key_eqb key K_DOWN && negb (pair_eqb (direction snake) UP)
  then set_next_direction snake DOWN
  else if key_eqb key K_LEFT && negb (pair_eqb (direction snake) RIGHT)
  then set_next_direction snake LEFT
  else if key_eqb key K_RIGHT && negb (pair_eqb (direction snake) LEFT)
  then set_next_direction snake RIGHT
  else snake.

(** [handle_keys], over the events of one call of [pygame.event.get()]. *)
Fixpoint handle_keys (events : list Event) (snake : Snake) : M Snake :=
  match events with
  | [] => ret snake
  | QUIT :: _ => raise SystemExit
  | KEYDOWN key :: rest => handle_keys rest (handle_keydown key snake)
  | other_event :: rest => handle_keys rest snake
  end.

(** ** The main loop *)

Record Game : Type := mkGame {
  snake : Snake;
  apple : Apple
}.

(** [while apple.position in snake.positions: apple.randomize_position()],
    cut off after [fuel] rounds. *)
Fixpoint while_on_snake (fuel : nat) (s : Snake) (a : Apple) : M Apple :=
  if mem (position a) (positions s) then
    match fuel with
    | O => raise OutOfFuel
    | S fuel' => a' <- randomize_position a ;; while_on_snake fuel' s a'
    end
  else ret a.

(** [snake.length += 1]. *)
Definition grow (s : Snake) : Snake :=
  {| base := base s;
     positions := positions s;
     direction := direction s;
     next_direction := next_direction s;
     length := length s + 1;
     last := last s |}.

(** The test of [main] whether the snake has eaten the apple. *)
Definition check_apple (fuel : nat) (g : Game) : M Game :=
  head <- get_head_position (snake g) ;;
  if pair_eqb head (position (apple g)) then
    let s := grow (snake g) in
    a <- randomize_position (apple g) ;;
    a <- while_on_snake fuel s a ;;
    ret {| snake := s; apple := a |}
  else ret g.

(** The objects [main] creates before its loop. *)
Definition main_setup : M Game :=
  let s := Snake_init in
  a <- Apple_init ;;
  ret {| snake := s; apple := a |}.

(** One round of the loop of [main]; [events] is what the round's
    [pygame.event.get()] yields. *)
Definition main_iteration (fuel : nat) (events : list Event) (g : Game)
  : M Game :=
  s <- handle_keys events (snake g) ;;
  let s := update_direction s in
  s <- move s ;;
  check_apple fuel {| snake := s; apple := apple g |}.

(** The first rounds of the loop of [main], one per list of events. *)
Fixpoint main_loop (fuel : nat) (inputs : list (list Event)) (g : Game)
  : M Game :=
  match inputs with
  | [] => ret g
  | events :: rest =>
      g' <- main_iteration fuel events g ;; main_loop fuel rest g'
  end.

(** [main], run for as many rounds as there are lists of events. *)
Definition main (fuel : nat) (inputs : list (list Event)) : M Game :=
  g <- main_setup ;; main_loop fuel inputs g.

(** ** Notions the properties are stated with *)

(** The test of [move] for a collision of the snake with itself:
    [new_position in self.positions[1:]]. *)
Definition collides (self : Snake) : bool :=
  match positions self with
  | [] => false
  | head :: rest => mem (new_position head (direction self)) rest
  end.


(** In the words of the specification: the body segments other than the
    current head and the tail that this round vacates. *)
Definition inner_body (self : Snake) : list Pair :=
  removelast (tl (positions self)).

(** The centre of the board, in pixels. *)
Definition board_center : Pair :=
  (GRID_WIDTH / 2 * GRID_SIZE, GRID_HEIGHT / 2 * GRID_SIZE).

(** The body is as long as [length] says, or one cell shorter. *)
Definition body_length_ok (s : Snake) : Prop :=
  len (positions s) = length s - 1 \/ len (positions s) = length s.

(** The direction a key asks for, as [handle_keys] pairs them. *)
Definition key_direction (key : Key) : option Pair :=
  match key with
  | K_UP => Some UP
  | K_DOWN => Some DOWN
  | K_LEFT => Some LEFT
  | K_RIGHT => Some RIGHT
  | K_other => None
  end.

(** In the words of the specification: two directions are opposite when
    their deltas sum to zero. *)
Definition opposite (d : Pair) : Pair := (- fst d, - snd d).

(** In the words of the specification: the direction an event asks for,
    when it is not the opposite of the direction [committed]. *)
Definition accepted (committed : Pair) (ev : Event) : list Pair :=
  match ev with
  | KEYDOWN key =>
      match key_direction key with
      | Some d => if pair_eqb committed (opposite d) then [] else [d]
      | None => []
      end
  | _ => []
  end.

(** The accepted directions of a list of events, in the order of arrival. *)
Definition accepted_inputs (committed : Pair) (events : list Event)
  : list Pair :=
  flat_map (accepted committed) events.

(** The cell [randomize_position] makes of two raw draws. *)
Definition cell_of_draws (d : Z * Z) : Pair :=
  (fst d mod GRID_WIDTH * GRID_SIZE, snd d mod GRID_HEIGHT * GRID_SIZE).

(** The tape that holds the given pairs of draws. *)
Definition tape_of (draws : list (Z * Z)) : Tape :=
  flat_map (fun d => [fst d; snd d]) draws.

(** The places between the statements of the loop of [main]. *)
Inductive Point : Type :=
| BeforeKeys                    (* the head of the loop *)
| BeforeUpdate                  (* after [handle_keys] *)
| BeforeMove                    (* after [update_direction] *)
| BeforeCheck (collided : bool) (* after [move] *).

(** [at_point p g]: some run of [main] is at place [p] in state [g]. *)
Inductive at_point : Point -> Game -> Prop :=
| at_setup t g t' :
    main_setup t = Ok (g, t') ->
    at_point BeforeKeys g
| at_keys g events t s t' :
    at_point BeforeKeys g ->
    handle_keys events (snake g) t = Ok (s, t') ->
    at_point BeforeUpdate {| snake := s; apple := apple g |}
| at_update g :
    at_point BeforeUpdate g ->
    at_point BeforeMove
      {| snake := update_direction (snake g); apple := apple g |}
| at_move g t s t' :
    at_point BeforeMove g ->
    move (snake g) t = Ok (s, t') ->
    at_point (BeforeCheck (collides (snake g)))
      {| snake := s; apple := apple g |}
| at_check c g fuel t g' t' :
    at_point (BeforeCheck c) g ->
    check_apple fuel g t = Ok (g', t') ->
    at_point BeforeKeys g'.

(** What the length of the body has to satisfy at each place. *)
Definition length_at (p : Point) (s : Snake) : Prop :=
  match p with
  | BeforeCheck _ => len (positions s) = length s
  | _ => body_length_ok s
  end.

(** ** Drawing *)

(** A call that draws on the surface of the window. *)
Inductive DrawCmd : Type :=
| surface_fill (color : Color)
    (* [surface.fill(color)] *)
| draw_rect (color : option Color) (pos size : Pair) (width : Z)
    (* [pygame.draw.rect(surface, color, pygame.Rect(pos, size), width)];
       the width is 0, a filled rectangle, when the call gives none *).

(** [GameObject.draw]: [pass]. *)
Definition GameObject_draw (self : GameObject) : list DrawCmd := [].

(** [Apple.draw], as the calls it makes in their order. *)
Definition Apple_draw (self : Apple) : list DrawCmd :=
  [draw_rect (body_color self) (position self) (GRID_SIZE, GRID_SIZE) 0;
   draw_rect (Some (255, 255, 255)) (position self)
             (GRID_SIZE, GRID_SIZE) 1].

(** [Snake.draw], as the calls it makes in their order. *)
Definition Snake_draw (self : Snake) : list DrawCmd :=
  flat_map
    (fun pos =>
       [draw_rect (body_color (base self)) pos (GRID_SIZE, GRID_SIZE) 0;
        draw_rect (Some (255, 255, 255)) pos (GRID_SIZE, GRID_SIZE) 1])
    (positions self)
  ++ match last self with
     | Some l =>
         [draw_rect (Some BOARD_BACKGROUND_COLOR) l (GRID_SIZE, GRID_SIZE) 0]
     | None => []
     end.

(** What a round of [main] draws: the background, the snake, the apple. *)
Definition main_frame (g : Game) : list DrawCmd :=
  surface_fill BOARD_BACKGROUND_COLOR
  :: Snake_draw (snake g) ++ Apple_draw (apple g).

(** ** Notions of the further properties *)

(** One of the four directions of the game. *)
Definition cardinal (d : Pair) : Prop := In d [UP; DOWN; LEFT; RIGHT].

(** The top left corner of a cell of the board. *)
Definition on_board (c : Pair) : Prop :=
  exists col row,
    0 <= col < GRID_WIDTH /\ 0 <= row < GRID_HEIGHT /\
    c = (col * GRID_SIZE, row * GRID_SIZE).

(** A position on the screen. *)
Definition on_screen (c : Pair) : Prop :=
  0 <= fst c < SCREEN_WIDTH /\ 0 <= snd c < SCREEN_HEIGHT.

(** A call that draws within one cell of the board, or fills the window. *)
Definition cmd_on_board (c : DrawCmd) : Prop :=
  match c with
  | surface_fill _ => True
  | draw_rect _ pos size _ => on_board pos /\ size = (GRID_SIZE, GRID_SIZE)
  end.

(** A direction is pending only between [handle_keys] and
    [update_direction]; it is one of the four and no reversal. *)
Definition pending_ok (p : Point) (s : Snake) : Prop :=
  match next_direction s with
  | None => True
  | Some d => p = BeforeUpdate /\ cardinal d /\ direction s <> opposite d
  end.

(** What every state of a run of [main] satisfies. *)
Definition sound (p : Point) (g : Game) : Prop :=
  cardinal (direction (snake g)) /\
  pending_ok p (snake g) /\
  Forall on_board (positions (snake g)) /\
  NoDup (positions (snake g)) /\
  on_board (position (apple g)).

(** The colour a cell has when the board is coloured like a chessboard. *)
Definition parity (c : Pair) : Z := ((fst c + snd c) / GRID_SIZE) mod 2.

(** Neighbours in the body lie on cells of different colours. *)
Fixpoint alternating (ps : list Pair) : Prop :=
  match ps with
  | a :: (b :: _) as ps' => parity a <> parity b /\ alternating ps'
  | _ => True
  end.

(** The second cell of the body lies behind the head: one step against
    the direction of the snake; once [update_direction] has set the
    direction of the coming move, it is not the cell this move leads to. *)
Definition neck_ok (p : Point) (s : Snake) : Prop :=
  match positions s with
  | head :: neck :: _ =>
      match p with
      | BeforeMove => new_position head (direction s) <> neck
      | _ => neck = new_position head (opposite (direction s))
      end
  | _ => True
  end.

(** The numbers [0 .. n-1]. *)
Definition range (n : Z) : list Z := map Z.of_nat (seq 0 (Z.to_nat n)).

(** All the cells of the board. *)
Definition board_cells : list Pair :=
  flat_map (fun col => map (fun row => (col * GRID_SIZE, row * GRID_SIZE))
                           (range GRID_HEIGHT))
           (range GRID_WIDTH).

(** The apple is on no cell of the body. *)
Definition apple_off (g : Game) : Prop :=
  mem (position (apple g)) (positions (snake g)) = false.

(** The head after [n] steps in direction [d], with nothing in the way. *)
Definition steps (n : nat) (d head : Pair) : Pair :=
  Nat.iter n (fun h => new_position h d) head.

(** ** Concrete runs *)

(** Six rounds: four straight on, then a turn up and a turn left. *)
Definition square_inputs : list (list Event) :=
  [[]; []; []; []; [KEYDOWN K_UP]; [KEYDOWN K_LEFT]].

(** Draws that put the apple in front of the snake three times and then
    at the centre of the board. *)
Definition square_tape : Tape := [17; 12; 18; 12; 19; 12; 16; 12].

(** The game after these six rounds: the snake fills a square of four
    cells, its head above its tail. *)
Definition square_game : Game :=
  {| snake :=
       {| base := {| position := (320, 240);
                     body_color := Some SNAKE_COLOR |};
          positions := [(380, 220); (400, 220); (400, 240); (380, 240)];
          direction := LEFT;
          next_direction := None;
          length := 4;
          last := Some (360, 240) |};
     apple := {| position := (320, 240); body_color := Some APPLE_COLOR |} |}.

(** The snake of [square_game] once it has been turned down. *)
Definition square_snake : Snake :=
  {| base := {| position := (320, 240); body_color := Some SNAKE_COLOR |};
     positions := [(380, 220); (400, 220); (400, 240); (380, 240)];
     direction := DOWN;
     next_direction := None;
     length := 4;
     last := Some (360, 240) |}.

(** The game after one round in which the snake eats the apple in front
    of it, the next apple again in front of it. *)
Definition fed_game : Game :=
  {| snake :=
       {| base := {| position := (320, 240);
                     body_color := Some SNAKE_COLOR |};
          positions := [(340, 240)];
          direction := RIGHT;
          next_direction := None;
          length := 2;
          last := Some (320, 240) |};
     apple := {| position := (360, 240); body_color := Some APPLE_COLOR |} |}.

(** ** Equality and membership of tuples *)

Lemma pair_eqb_eq (a b : Pair) : pair_eqb a b = true <-> a = b.
Proof.
  destruct a as [ax ay], b as [bx by_]; unfold pair_eqb; simpl.
  rewrite andb_true_iff, !Z.eqb_eq.
  split; [intros [-> ->]; reflexivity | intros E; inversion E; auto].
Qed.

Lemma pair_eqb_refl (a : Pair) : pair_eqb a a = true.
Proof. apply pair_eqb_eq; reflexivity. Qed.

Lemma pair_eqb_neq (a b : Pair) : pair_eqb a b = false <-> a <> b.
Proof.
  rewrite <- pair_eqb_eq. destruct (pair_eqb a b); split; congruence.
Qed.

Lemma mem_In (c : Pair) (l : list Pair) : mem c l = true <-> In c l.
Proof.
  unfold mem. rewrite existsb_exists. split.
  - intros [x [Hin Heq]]. apply pair_eqb_eq in Heq. subst. exact Hin.
  - intros Hin. exists c. split; [exact Hin | apply pair_eqb_refl].
Qed.

Lemma len_cons {A : Type} (x : A) (l : list A) : len (x :: l) = len l + 1.
Proof. unfold len. simpl List.length. lia. Qed.

Lemma len_nonneg {A : Type} (l : list A) : 0 <= len l.
Proof. unfold len. lia. Qed.

Lemma len_removelast {A : Type} (x : A) (l : list A) :
  len (removelast (x :: l)) = len l.
Proof.
  unfold len. f_equal. revert x.
  induction l as [|y l IH]; intros x; [reflexivity|].
  change (removelast (x :: y :: l)) with (x :: removelast (y :: l)).
  change (S (List.length (removelast (y :: l))) = S (List.length l)).
  rewrite IH. reflexivity.
Qed.

(** ** What the random generator returns *)

Lemma randomize_position_draws (a : Apple) (rx ry : Z) (t : Tape) :
  randomize_position a (rx :: ry :: t)
  = Ok ({| position := cell_of_draws (rx, ry);
           body_color := body_color a |}, t).
Proof. reflexivity. Qed.

Lemma randomize_position_ok (a a' : Apple) (t t' : Tape) :
  randomize_position a t = Ok (a', t') ->
  exists rx ry, t = rx :: ry :: t' /\
                position a' = cell_of_draws (rx, ry) /\
                body_color a' = body_color a.
Proof.
  destruct t as [|rx [|ry t0]]; try discriminate.
  rewrite randomize_position_draws. intros E. inversion E; subst.
  exists rx, ry. auto.
Qed.

Lemma choice_direction (r : Z) (t : Tape) :
  exists d, In d [UP; DOWN; LEFT; RIGHT] /\
            random.choice [UP; DOWN; LEFT; RIGHT] (r :: t) = Ok (d, t).
Proof.
  unfold random.choice, random.randbelow, bind.
  change (len [UP; DOWN; LEFT; RIGHT]) with 4.
  assert (Hr : 0 <= r mod 4 < 4) by (apply Z.mod_pos_bound; lia).
  assert (Hc : r mod 4 = 0 \/ r mod 4 = 1 \/ r mod 4 = 2 \/ r mod 4 = 3)
    by lia.
  destruct Hc as [-> | [-> | [-> | ->]]]; simpl;
    eexists; (split; [|reflexivity]); simpl; auto.
Qed.

(** ** The equations of [reset] and [move] *)

Lemma reset_draw (s : Snake) (r : Z) (t : Tape) :
  exists d, In d [UP; DOWN; LEFT; RIGHT] /\
    reset s (r :: t)
    = Ok ({| base := base s;
             positions := [(SCREEN_WIDTH / 2, SCREEN_HEIGHT / 2)];
             direction := d;
             next_direction := None;
             length := 1;
             last := last s |}, t).
Proof.
  destruct (choice_direction r t) as [d [Hd Hc]].
  exists d. split; [exact Hd|].
  unfold reset, bind. rewrite Hc. reflexivity.
Qed.

Lemma reset_ok (s s' : Snake) (t t' : Tape) :
  reset s t = Ok (s', t') ->
  exists r d, t = r :: t' /\ In d [UP; DOWN; LEFT; RIGHT] /\
    s' = {| base := base s;
            positions := [(SCREEN_WIDTH / 2, SCREEN_HEIGHT / 2)];
            direction := d;
            next_direction := None;
            length := 1;
            last := last s |}.
Proof.
  destruct t as [|r t0]; [discriminate|].
  destruct (reset_draw s r t0) as [d [Hd Hr]].
  rewrite Hr. intros E. inversion E; subst. exists r, d. auto.
Qed.

Lemma move_eq (s : Snake) (head : Pair) (rest : list Pair) (t : Tape) :
  positions s = head :: rest ->
  move s t =
  if collides s then reset s t
  else Ok ({| base := base s;
              positions :=
                if len (new_position head (direction s) :: head :: rest)
                   >? length s
                then removelast
                       (new_position head (direction s) :: head :: rest)
                else new_position head (direction s) :: head :: rest;
              direction := direction s;
              next_direction := next_direction s;
              length := length s;
              last := last_position (head :: rest) |}, t).
Proof.
  intros Hp. unfold move, collides, get_head_position, bind.
  rewrite Hp. unfold ret. cbn [tl].
  destruct (mem (new_position head (direction s)) rest); reflexivity.
Qed.

Lemma move_empty (s : Snake) (t : Tape) :
  positions s = [] -> move s t = Raise IndexError.
Proof.
  intros Hp. unfold move, get_head_position, bind. rewrite Hp. reflexivity.
Qed.

Lemma new_position_grid (col row dx dy : Z) :
  new_position (col * GRID_SIZE, row * GRID_SIZE) (dx, dy)
  = ((col + dx) mod GRID_WIDTH * GRID_SIZE,
     (row + dy) mod GRID_HEIGHT * GRID_SIZE).
Proof.
  unfold new_position.
  change SCREEN_WIDTH with (GRID_WIDTH * GRID_SIZE).
  change SCREEN_HEIGHT with (GRID_HEIGHT * GRID_SIZE).
  rewrite <- !Z.mul_add_distr_r.
  rewrite !Z.mul_mod_distr_r by discriminate.
  reflexivity.
Qed.

Lemma collides_cons (s : Snake) (head : Pair) (rest : list Pair) :
  positions s = head :: rest ->
  collides s = mem (new_position head (direction s)) rest.
Proof. intros Hp. unfold collides. rewrite Hp. reflexivity. Qed.

Lemma move_free (s : Snake) (head : Pair) (rest : list Pair) (t : Tape) :
  positions s = head :: rest ->
  collides s = false ->
  exists s',
    move s t = Ok (s', t) /\
    hd_error (positions s') = Some (new_position head (direction s)) /\
    (positions s' = new_position head (direction s) :: head :: rest \/
     positions s'
     = new_position head (direction s) :: removelast (head :: rest)) /\
    length s' = length s /\
    direction s' = direction s /\
    next_direction s' = next_direction s /\
    last s' = last_position (head :: rest).
Proof.
  intros Hp Hc. rewrite (move_eq s head rest t Hp), Hc.
  eexists. split; [reflexivity|]. cbn [positions length direction
    next_direction last].
  change (removelast (new_position head (direction s) :: head :: rest))
    with (new_position head (direction s) :: removelast (head :: rest)).
  destruct (len (new_position head (direction s) :: head :: rest)
            >? length s); auto 10.
Qed.

(** ** The new head *)

(** C1: whenever [move] does not end in a collision it leaves the tape of
    the generator alone and puts at the front of the body the cell
    [((head_x + dx * GRID_SIZE) mod SCREEN_WIDTH,
      (head_y + dy * GRID_SIZE) mod SCREEN_HEIGHT)], which is on the screen;
    counted in cells this is the column plus [dx] modulo [GRID_WIDTH] and
    the row plus [dy] modulo [GRID_HEIGHT], so that a step to the right from
    the last column leads to column 0 of the same row, and likewise to the
    left from column 0, down from the last row and up from row 0. *)
Theorem move_new_head_wraps :
  (forall s t hx hy dx dy rest,
      positions s = (hx, hy) :: rest ->
      direction s = (dx, dy) ->
      collides s = false ->
      exists s',
        move s t = Ok (s', t) /\
        hd_error (positions s')
        = Some ((hx + dx * GRID_SIZE) mod SCREEN_WIDTH,
                (hy + dy * GRID_SIZE) mod SCREEN_HEIGHT) /\
        0 <= (hx + dx * GRID_SIZE) mod SCREEN_WIDTH < SCREEN_WIDTH /\
        0 <= (hy + dy * GRID_SIZE) mod SCREEN_HEIGHT < SCREEN_HEIGHT) /\
  (forall col row dx dy,
      new_position (col * GRID_SIZE, row * GRID_SIZE) (dx, dy)
      = ((col + dx) mod GRID_WIDTH * GRID_SIZE,
         (row + dy) mod GRID_HEIGHT * GRID_SIZE)) /\
  (forall col row,
      0 <= col < GRID_WIDTH ->
      0 <= row < GRID_HEIGHT ->
      new_position ((GRID_WIDTH - 1) * GRID_SIZE, row * GRID_SIZE) RIGHT
      = (0, row * GRID_SIZE) /\
      new_position (0, row * GRID_SIZE) LEFT
      = ((GRID_WIDTH - 1) * GRID_SIZE, row * GRID_SIZE) /\
      new_position (col * GRID_SIZE, (GRID_HEIGHT - 1) * GRID_SIZE) DOWN
      = (col * GRID_SIZE, 0) /\
      new_position (col * GRID_SIZE, 0) UP
      = (col * GRID_SIZE, (GRID_HEIGHT - 1) * GRID_SIZE)).
Proof.
  split; [|split].
  - intros s t hx hy dx dy rest Hp Hd Hc.
    destruct (move_free s (hx, hy) rest t Hp Hc) as [s' [Hm [Hh _]]].
    exists s'. split; [exact Hm|]. rewrite Hd in Hh.
    split; [exact Hh|].
    split; apply Z.mod_pos_bound; reflexivity.
  - exact new_position_grid.
  - intros col row Hcol Hrow.
    change 0 with (0 * GRID_SIZE) at 1 2 3 4.
    unfold RIGHT, LEFT, DOWN, UP. rewrite !new_position_grid.
    change GRID_WIDTH with 32 in *. change GRID_HEIGHT with 24 in *.
    replace (32 - 1 + 1) with (1 * 32) by reflexivity.
    replace (24 - 1 + 1) with (1 * 24) by reflexivity.
    rewrite !Z.mod_mul by discriminate.
    rewrite !Z.add_0_r, !Z.add_0_l.
    rewrite (Z.mod_small row 24), (Z.mod_small col 32) by lia.
    change (-1 mod 32) with (32 - 1). change (-1 mod 24) with (24 - 1).
    auto.
Qed.

Lemma move_new_head_wraps_witness :
  (exists s',
      move Snake_init [] = Ok (s', []) /\
      hd_error (positions s') = Some (340, 240)) /\
  new_position (31 * GRID_SIZE, 5 * GRID_SIZE) RIGHT = (0, 5 * GRID_SIZE) /\
  new_position (3 * GRID_SIZE, 0) UP = (3 * GRID_SIZE, 23 * GRID_SIZE).
Proof.
  destruct move_new_head_wraps as [Hmove [_ Hedge]].
  split.
  - destruct (Hmove Snake_init [] 320 240 1 0 [] eq_refl eq_refl eq_refl)
      as [s' [Hm [Hh _]]].
    exists s'. split; [exact Hm | exact Hh].
  - destruct (Hedge 3 5 ltac:(change GRID_WIDTH with 32; lia)
                        ltac:(change GRID_HEIGHT with 24; lia))
      as [Hr [_ [_ Hu]]].
    split; [exact Hr | exact Hu].
Defined.

(** ** Collisions of the snake with itself *)

Lemma reset_changes_tape (s s' : Snake) (t : Tape) :
  reset s t <> Ok (s', t).
Proof.
  intros E. apply reset_ok in E. destruct E as [r [d [Ht _]]].
  apply (f_equal (@List.length Z)) in Ht. simpl in Ht. lia.
Qed.

Lemma last_position_cons (head : Pair) (rest : list Pair) :
  rest <> [] ->
  last_position (head :: rest) = nth_error rest (List.length rest - 1)%nat.
Proof.
  intros Hne. unfold last_position. rewrite len_cons.
  pose proof (len_nonneg rest) as Hl.
  destruct (0 <? len rest + 1) eqn:E; [|apply Z.ltb_ge in E; lia].
  replace (len rest + 1 - 1) with (len rest) by lia.
  unfold len. rewrite Nat2Z.id.
  destruct rest as [|x rest']; [contradiction|].
  cbn [List.length].
  replace (S (List.length rest') - 1)%nat with (List.length rest') by lia.
  reflexivity.
Qed.

Lemma last_position_in_rest (head tail_ : Pair) (rest : list Pair) :
  rest <> [] ->
  last_position (head :: rest) = Some tail_ ->
  In tail_ rest.
Proof.
  intros Hne Hl. rewrite (last_position_cons head rest Hne) in Hl.
  eapply nth_error_In. exact Hl.
Qed.

(** C3, as the code has it: [move] goes the way of [reset] exactly when the
    new head is one of [positions[1:]], the cells of the body but for the
    head, the tail among them; otherwise it does not touch the generator
    and puts the new head in front.  So a move onto the cell of the tail is
    a collision. *)
Theorem move_resets_iff_new_head_in_rest :
  forall s head rest t,
    positions s = head :: rest ->
    (move s t = reset s t <->
     mem (new_position head (direction s)) rest = true) /\
    (mem (new_position head (direction s)) rest = false ->
     exists s',
       move s t = Ok (s', t) /\
       hd_error (positions s') = Some (new_position head (direction s)) /\
       length s' = length s /\
       direction s' = direction s) /\
    (rest <> [] ->
     last_position (head :: rest) = Some (new_position head (direction s)) ->
     move s t = reset s t).
Proof.
  intros s head rest t Hp.
  pose proof (collides_cons s head rest Hp) as Hc.
  assert (Hfree : mem (new_position head (direction s)) rest = false ->
                  exists s',
                    move s t = Ok (s', t) /\
                    hd_error (positions s')
                    = Some (new_position head (direction s)) /\
                    length s' = length s /\
                    direction s' = direction s).
  { intros Hm. rewrite <- Hc in Hm.
    destruct (move_free s head rest t Hp Hm)
      as [s' [Hmv [Hh [_ [Hl [Hd _]]]]]].
    exists s'. auto. }
  assert (Hhit : mem (new_position head (direction s)) rest = true ->
                 move s t = reset s t).
  { intros Hm. rewrite (move_eq s head rest t Hp), Hc, Hm. reflexivity. }
  split; [split|split].
  - intros Heq.
    destruct (mem (new_position head (direction s)) rest) eqn:Hm;
      [reflexivity|].
    destruct (Hfree eq_refl) as [s' [Hmv _]].
    rewrite Hmv in Heq. symmetry in Heq.
    exfalso. exact (reset_changes_tape s s' t Heq).
  - exact Hhit.
  - exact Hfree.
  - intros Hne Hl. apply Hhit. apply mem_In.
    exact (last_position_in_rest head _ rest Hne Hl).
Qed.

Lemma move_resets_iff_new_head_in_rest_witness :
  move square_snake [3] = reset square_snake [3] /\
  exists s',
    move Snake_init [3] = Ok (s', [3]) /\
    hd_error (positions s') = Some (340, 240).
Proof.
  split.
  - destruct (move_resets_iff_new_head_in_rest square_snake (380, 220)
                [(400, 220); (400, 240); (380, 240)] [3] eq_refl)
      as [_ [_ Htail]].
    apply Htail; [discriminate | reflexivity].
  - destruct (move_resets_iff_new_head_in_rest Snake_init (320, 240)
                [] [3] eq_refl)
      as [_ [Hfree _]].
    destruct (Hfree eq_refl) as [s' [Hmv [Hh _]]].
    exists s'. split; [exact Hmv | exact Hh].
Defined.

(** C3, as the specification words it, fails on the snake of [square_game], which
    [main] reaches in six rounds: turned down, its new head is the cell of
    its tail and none of the cells between head and tail, and yet [move]
    resets the snake. *)
Lemma tail_cell_collision :
  main 0 square_inputs square_tape = Ok (square_game, []) /\
  (s <- handle_keys [KEYDOWN K_DOWN] (snake square_game) ;;
   ret (update_direction s)) [3] = Ok (square_snake, [3]) /\
  new_position (380, 220) (direction square_snake) = (380, 240) /\
  last_position (positions square_snake) = Some (380, 240) /\
  mem (380, 240) (inner_body square_snake) = false /\
  move square_snake [3] = reset square_snake [3] /\
  move square_snake [3]
  = Ok ({| base := base square_snake;
           positions := [(320, 240)];
           direction := RIGHT;
           next_direction := None;
           length := 1;
           last := Some (360, 240) |}, []).
Proof. repeat split. Qed.

(** C4: a [move] that collides ends as [reset] does, with one draw of the
    generator: the length is 1, the body is the one cell at the centre of
    the board (so no head was put in front and no tail taken off, and the
    cell to erase is the one recorded before), the direction is one of the
    four and no direction is pending; and this is what [reset] does to
    any snake. *)
Theorem collision_resets_snake :
  forall s head rest r t,
    positions s = head :: rest ->
    collides s = true ->
    exists s',
      move s (r :: t) = Ok (s', t) /\
      reset s (r :: t) = Ok (s', t) /\
      length s' = 1 /\
      positions s' = [board_center] /\
      In (direction s') [UP; DOWN; LEFT; RIGHT] /\
      next_direction s' = None /\
      last s' = last s /\
      base s' = base s.
Proof.
  intros s head rest r t Hp Hc.
  destruct (reset_draw s r t) as [d [Hd Hr]].
  eexists. rewrite (move_eq s head rest (r :: t) Hp), Hc.
  split; [exact Hr|]. split; [exact Hr|].
  cbn [length positions direction next_direction last base].
  repeat split. exact Hd.
Qed.

Lemma collision_resets_snake_witness :
  exists s',
    move square_snake [3] = Ok (s', []) /\
    length s' = 1 /\
    positions s' = [(320, 240)] /\
    next_direction s' = None.
Proof.
  destruct (collision_resets_snake square_snake (380, 220)
              [(400, 220); (400, 240); (380, 240)] 3 [] eq_refl eq_refl)
    as [s' [Hm [_ [Hl [Hp [_ [Hn _]]]]]]].
  exists s'. repeat split; assumption.
Defined.

(** ** The monad *)

Lemma bind_ok {A B : Type} (m : M A) (k : A -> M B) (t t' : Tape) (b : B) :
  bind m k t = Ok (b, t') ->
  exists a t1, m t = Ok (a, t1) /\ k a t1 = Ok (b, t').
Proof.
  unfold bind. destruct (m t) as [[a t1]|e]; [|discriminate].
  intros Hk. exists a, t1. split; [reflexivity | exact Hk].
Qed.

Lemma bind_eq {A B : Type} (m : M A) (k : A -> M B) (t t1 : Tape) (a : A) :
  m t = Ok (a, t1) -> bind m k t = k a t1.
Proof. intros Hm. unfold bind. rewrite Hm. reflexivity. Qed.

(** ** Keys *)

Lemma last_nonempty_default {A : Type} (x : A) (l : list A) (d d' : A) :
  List.last (x :: l) d = List.last (x :: l) d'.
Proof.
  revert x. induction l as [|y l IH]; intros x; [reflexivity|].
  change (List.last (y :: l) d = List.last (y :: l) d'). apply IH.
Qed.

Lemma last_cons_default {A : Type} (x : A) (l : list A) (d : A) :
  List.last (x :: l) d = List.last l x.
Proof.
  destruct l as [|y l]; [reflexivity|].
  change (List.last (y :: l) d = List.last (y :: l) x).
  apply last_nonempty_default.
Qed.

Lemma last_app_default {A : Type} (l1 l2 : list A) (d : A) :
  List.last (l1 ++ l2) d = List.last l2 (List.last l1 d).
Proof.
  revert d. induction l1 as [|x l1 IH]; intros d; [reflexivity|].
  rewrite <- app_comm_cons, !last_cons_default. apply IH.
Qed.

Lemma handle_keydown_accepted (key : Key) (s : Snake) :
  handle_keydown key s
  = match accepted (direction s) (KEYDOWN key) with
    | d :: _ => set_next_direction s d
    | [] => s
    end.
Proof.
  unfold handle_keydown, accepted.
  destruct key; cbn [key_eqb key_direction andb negb];
    change (opposite UP) with DOWN; change (opposite DOWN) with UP;
    change (opposite LEFT) with RIGHT; change (opposite RIGHT) with LEFT;
    try reflexivity;
    match goal with
    | |- context [pair_eqb ?a ?b] => destruct (pair_eqb a b); reflexivity
    end.
Qed.

Lemma handle_keydown_fields (key : Key) (s : Snake) :
  base (handle_keydown key s) = base s /\
  positions (handle_keydown key s) = positions s /\
  direction (handle_keydown key s) = direction s /\
  length (handle_keydown key s) = length s /\
  last (handle_keydown key s) = last s /\
  next_direction (handle_keydown key s)
  = List.last (map Some (accepted (direction s) (KEYDOWN key)))
              (next_direction s).
Proof.
  rewrite handle_keydown_accepted. unfold accepted.
  destruct (key_direction key) as [d|]; [|repeat split].
  destruct (pair_eqb (direction s) (opposite d)); repeat split.
Qed.

Lemma handle_keys_fields (events : list Event) :
  forall s t s' t',
    handle_keys events s t = Ok (s', t') ->
    t' = t /\
    base s' = base s /\
    positions s' = positions s /\
    direction s' = direction s /\
    length s' = length s /\
    last s' = last s /\
    next_direction s'
    = List.last (map Some (accepted_inputs (direction s) events))
                (next_direction s).
Proof.
  induction events as [|ev rest IH]; intros s t s' t' H.
  - inversion H; subst. repeat split.
  - destruct ev as [|key|]; cbn [handle_keys] in H.
    + discriminate.
    + apply IH in H.
      destruct (handle_keydown_fields key s)
        as [Hb [Hp [Hd [Hl [Hla Hn]]]]].
      destruct H as [-> [-> [-> [Hd' [-> [-> Hn']]]]]].
      rewrite Hd in Hd', Hn'. rewrite Hn in Hn'.
      repeat split; try assumption.
      rewrite Hn'. unfold accepted_inputs. cbn [flat_map].
      rewrite map_app, last_app_default. reflexivity.
    + apply IH in H. exact H.
Qed.

Lemma handle_keys_returns (events : list Event) :
  forall s t, ~ In QUIT events -> exists s', handle_keys events s t = Ok (s', t).
Proof.
  induction events as [|ev rest IH]; intros s t Hq.
  - exists s. reflexivity.
  - destruct ev as [|key|]; cbn [handle_keys].
    + exfalso. apply Hq. left. reflexivity.
    + apply IH. intros Hin. apply Hq. right. exact Hin.
    + apply IH. intros Hin. apply Hq. right. exact Hin.
Qed.

Lemma accepted_inputs_In (committed d : Pair) (events : list Event) :
  In d (accepted_inputs committed events) <->
  exists key, In (KEYDOWN key) events /\ key_direction key = Some d /\
              committed <> opposite d.
Proof.
  unfold accepted_inputs. rewrite in_flat_map. split.
  - intros [ev [Hin Hacc]]. destruct ev as [|key|]; try contradiction.
    unfold accepted in Hacc.
    destruct (key_direction key) as [d'|] eqn:Hk; [|contradiction].
    destruct (pair_eqb committed (opposite d')) eqn:Ho; [contradiction|].
    destruct Hacc as [<-|[]].
    exists key. split; [exact Hin|]. split; [exact Hk|].
    apply pair_eqb_neq. exact Ho.
  - intros [key [Hin [Hk Hne]]]. exists (KEYDOWN key). split; [exact Hin|].
    unfold accepted. rewrite Hk.
    apply pair_eqb_neq in Hne. rewrite Hne. left. reflexivity.
Qed.

(** C5: a key that asks for direction [d] sets the pending direction to
    [d] unless the snake's direction is the opposite of [d], in which case
    nothing changes; over the events of one round, none of them a quit,
    [handle_keys] returns, leaves the direction as it is, and leaves as
    pending direction the last of the directions asked for that are not
    opposite to that (unchanged) direction, or the former pending direction
    when there is none. *)
Theorem handle_keys_last_accepted :
  (forall key d s,
      key_direction key = Some d ->
      (direction s = opposite d -> handle_keydown key s = s) /\
      (direction s <> opposite d ->
       handle_keydown key s = set_next_direction s d)) /\
  (forall events s t,
      ~ In QUIT events ->
      exists s',
        handle_keys events s t = Ok (s', t) /\
        direction s' = direction s /\
        positions s' = positions s /\
        length s' = length s /\
        next_direction s'
        = List.last (map Some (accepted_inputs (direction s) events))
                    (next_direction s)) /\
  (forall committed d events,
      In d (accepted_inputs committed events) <->
      exists key, In (KEYDOWN key) events /\ key_direction key = Some d /\
                  committed <> opposite d).
Proof.
  split; [|split].
  - intros key d s Hk. rewrite handle_keydown_accepted.
    unfold accepted. rewrite Hk. split.
    + intros Ho. rewrite Ho, pair_eqb_refl. reflexivity.
    + intros Hne. apply pair_eqb_neq in Hne. rewrite Hne. reflexivity.
  - intros events s t Hq.
    destruct (handle_keys_returns events s t Hq) as [s' Hk].
    exists s'. split; [exact Hk|].
    apply handle_keys_fields in Hk.
    destruct Hk as [_ [_ [Hp [Hd [Hl [_ Hn]]]]]]. auto.
  - exact accepted_inputs_In.
Qed.

Lemma handle_keys_last_accepted_witness :
  handle_keydown K_LEFT Snake_init = Snake_init /\
  handle_keydown K_UP Snake_init = set_next_direction Snake_init UP /\
  exists s',
    handle_keys [KEYDOWN K_UP; KEYDOWN K_LEFT; other_event; KEYDOWN K_DOWN;
                 KEYDOWN K_LEFT] Snake_init []
    = Ok (s', []) /\
    direction s' = RIGHT /\
    next_direction s' = Some DOWN.
Proof.
  destruct handle_keys_last_accepted as [Hone [Hmany _]].
  split; [|split].
  - apply (Hone K_LEFT LEFT Snake_init eq_refl). reflexivity.
  - apply (Hone K_UP UP Snake_init eq_refl). discriminate.
  - destruct (Hmany [KEYDOWN K_UP; KEYDOWN K_LEFT; other_event;
                     KEYDOWN K_DOWN; KEYDOWN K_LEFT] Snake_init [])
      as [s' [Hk [Hd [_ [_ Hn]]]]].
    + intros [E|[E|[E|[E|[E|[]]]]]]; discriminate.
    + exists s'. split; [exact Hk|]. split; [exact Hd | exact Hn].
Defined.

(** ** The apple *)

Lemma while_on_snake_ok (fuel : nat) (s : Snake) :
  forall a t a' t',
    while_on_snake fuel s a t = Ok (a', t') ->
    mem (position a') (positions s) = false /\
    body_color a' = body_color a.
Proof.
  induction fuel as [|fuel IH]; intros a t a' t' H; cbn [while_on_snake] in H.
  - destruct (mem (position a) (positions s)) eqn:Hm; [discriminate|].
    inversion H; subst. auto.
  - destruct (mem (position a) (positions s)) eqn:Hm.
    + apply bind_ok in H. destruct H as [a1 [t1 [Hr Hw]]].
      apply randomize_position_ok in Hr.
      destruct Hr as [rx [ry [_ [_ Hc]]]].
      apply IH in Hw. destruct Hw as [Hfree Hc']. split; congruence.
    + inversion H; subst. auto.
Qed.

Lemma check_apple_inv (fuel : nat) (g g' : Game) (t t' : Tape) :
  check_apple fuel g t = Ok (g', t') ->
  exists head rest,
    positions (snake g) = head :: rest /\
    ((head <> position (apple g) /\ g' = g /\ t' = t) \/
     (head = position (apple g) /\
      snake g' = grow (snake g) /\
      mem (position (apple g')) (positions (snake g)) = false /\
      body_color (apple g') = body_color (apple g))).
Proof.
  unfold check_apple, get_head_position. intros H.
  destruct (positions (snake g)) as [|head rest] eqn:Hp.
  - discriminate.
  - exists head, rest. split; [reflexivity|].
    unfold bind at 1 in H. unfold ret at 1 in H.
    destruct (pair_eqb head (position (apple g))) eqn:He.
    + right. apply pair_eqb_eq in He.
      apply bind_ok in H. destruct H as [a1 [t1 [Hr H]]].
      apply bind_ok in H. destruct H as [a2 [t2 [Hw H]]].
      inversion H; subst g' t'. cbn [snake apple].
      apply randomize_position_ok in Hr.
      destruct Hr as [rx [ry [_ [_ Hc]]]].
      apply while_on_snake_ok in Hw. cbn [grow positions] in Hw.
      destruct Hw as [Hfree Hc'].
      rewrite <- Hp. repeat split; try assumption. congruence.
    + left. apply pair_eqb_neq in He. inversion H; subst. auto.
Qed.

(** ** The length of the body *)

Lemma move_length (s s' : Snake) (t t' : Tape) :
  body_length_ok s ->
  move s t = Ok (s', t') ->
  len (positions s') = length s'.
Proof.
  intros Hok Hm.
  destruct (positions s) as [|head rest] eqn:Hp.
  - rewrite (move_empty s t Hp) in Hm. discriminate.
  - rewrite (move_eq s head rest t Hp) in Hm.
    destruct (collides s).
    + apply reset_ok in Hm. destruct Hm as [r [d [_ [_ ->]]]]. reflexivity.
    + unfold body_length_ok in Hok. rewrite Hp in Hok.
      assert (Hs' : positions s'
                    = (if len (new_position head (direction s) :: head :: rest)
                          >? length s
                       then removelast
                              (new_position head (direction s) :: head :: rest)
                       else new_position head (direction s) :: head :: rest)
                    /\ length s' = length s)
        by (injection Hm as <- _; split; reflexivity).
      destruct Hs' as [-> ->].
      destruct (len (new_position head (direction s) :: head :: rest)
                >? length s) eqn:Hgt.
      * apply Z.gtb_lt in Hgt. rewrite len_removelast.
        rewrite len_cons in Hgt. lia.
      * assert (Hle : len (new_position head (direction s) :: head :: rest)
                      <= length s).
        { pose proof (Zgt_cases
            (len (new_position head (direction s) :: head :: rest))
            (length s)) as Hcase.
          rewrite Hgt in Hcase. exact Hcase. }
        rewrite !len_cons in *. lia.
Qed.

Lemma update_direction_fields (s : Snake) :
  base (update_direction s) = base s /\
  positions (update_direction s) = positions s /\
  length (update_direction s) = length s /\
  last (update_direction s) = last s.
Proof.
  unfold update_direction. destruct (next_direction s); repeat split.
Qed.

Lemma main_setup_ok (t t' : Tape) (g : Game) :
  main_setup t = Ok (g, t') ->
  snake g = Snake_init /\
  exists rx ry, t = rx :: ry :: t' /\ position (apple g) = cell_of_draws (rx, ry).
Proof.
  unfold main_setup, Apple_init. intros H.
  apply bind_ok in H. destruct H as [a [t1 [Hr H]]].
  inversion H; subst g t'. cbn [snake apple]. split; [reflexivity|].
  apply randomize_position_ok in Hr. destruct Hr as [rx [ry [Ht [Hpos _]]]].
  exists rx, ry. auto.
Qed.

Lemma at_point_length (p : Point) (g : Game) :
  at_point p g -> length_at p (snake g).
Proof.
  induction 1 as [t g t' Hs | g events t s t' _ IH Hk | g _ IH
                 | g t s t' _ IH Hm | c g fuel t g' t' _ IH Hc];
    cbn [length_at snake] in *.
  - apply main_setup_ok in Hs. destruct Hs as [-> _]. right. reflexivity.
  - apply handle_keys_fields in Hk.
    destruct Hk as [_ [_ [Hp [_ [Hl _]]]]].
    unfold body_length_ok in *. rewrite Hp, Hl. exact IH.
  - destruct (update_direction_fields (snake g)) as [_ [Hp [Hl _]]].
    unfold body_length_ok in *. rewrite Hp, Hl. exact IH.
  - exact (move_length _ _ _ _ IH Hm).
  - apply check_apple_inv in Hc.
    destruct Hc as [head [rest [Hp [[_ [-> _]] | [_ [Hg _]]]]]].
    + right. exact IH.
    + left. rewrite Hg. cbn [grow positions length]. lia.
Qed.

Lemma main_iteration_at_point (fuel : nat) (events : list Event)
      (g g' : Game) (t t' : Tape) :
  at_point BeforeKeys g ->
  main_iteration fuel events g t = Ok (g', t') ->
  at_point BeforeKeys g'.
Proof.
  intros Hg H. unfold main_iteration in H.
  apply bind_ok in H. destruct H as [s1 [t1 [Hk H]]].
  apply bind_ok in H. destruct H as [s2 [t2 [Hm Hc]]].
  pose proof (at_keys g events t s1 t1 Hg Hk) as H1.
  pose proof (at_update _ H1) as H2. cbn [snake apple] in H2.
  pose proof (at_move _ t1 s2 t2 H2 Hm) as H3. cbn [snake apple] in H3.
  exact (at_check _ _ fuel t2 g' t' H3 Hc).
Qed.

Lemma main_loop_at_point (fuel : nat) (inputs : list (list Event)) :
  forall g t g' t',
    at_point BeforeKeys g ->
    main_loop fuel inputs g t = Ok (g', t') ->
    at_point BeforeKeys g'.
Proof.
  induction inputs as [|events rest IH]; intros g t g' t' Hg H.
  - inversion H; subst. exact Hg.
  - cbn [main_loop] in H.
    apply bind_ok in H. destruct H as [g1 [t1 [Hi Hl]]].
    apply (IH g1 t1 g' t'); [|exact Hl].
    exact (main_iteration_at_point fuel events g g1 t t1 Hg Hi).
Qed.

Lemma main_at_point (fuel : nat) (inputs : list (list Event))
      (t t' : Tape) (g : Game) :
  main fuel inputs t = Ok (g, t') -> at_point BeforeKeys g.
Proof.
  unfold main. intros H.
  apply bind_ok in H. destruct H as [g0 [t0 [Hs Hl]]].
  apply (main_loop_at_point fuel inputs g0 t0 g t'); [|exact Hl].
  exact (at_setup t g0 t0 Hs).
Qed.

(** C2: [main] reaches only places of [at_point], and at each of them the
    body of the snake has [length] cells or one less; right after [move],
    whether it ended in a collision or not, it has exactly [length]. *)
Theorem body_length_invariant :
  (forall fuel inputs t g t',
      main fuel inputs t = Ok (g, t') -> at_point BeforeKeys g) /\
  (forall p g,
      at_point p g ->
      body_length_ok (snake g) /\
      match p with
      | BeforeCheck _ => len (positions (snake g)) = length (snake g)
      | _ => True
      end).
Proof.
  split.
  - intros fuel inputs t g t'. apply main_at_point.
  - intros p g H. pose proof (at_point_length p g H) as Hl.
    destruct p; cbn [length_at] in Hl; auto.
    split; [right|]; exact Hl.
Qed.

Lemma body_length_invariant_witness :
  body_length_ok (snake square_game) /\
  exists s,
    move square_snake [3] = Ok (s, []) /\ len (positions s) = length s.
Proof.
  destruct body_length_invariant as [Hmain Hinv].
  pose proof (Hmain 0%nat square_inputs square_tape square_game []
                    eq_refl) as H0.
  split.
  - exact (proj1 (Hinv BeforeKeys square_game H0)).
  - pose proof (at_keys square_game [KEYDOWN K_DOWN] [3] _ [3] H0 eq_refl)
      as H1.
    pose proof (at_update _ H1) as H2.
    exists {| base := base square_snake;
              positions := [(320, 240)];
              direction := RIGHT;
              next_direction := None;
              length := 1;
              last := Some (360, 240) |}.
    split; [reflexivity|].
    exact (proj2 (Hinv _ _ (at_move _ [3] _ [] H2 eq_refl))).
Defined.

(** ** The body is never empty *)

Lemma move_nonempty (s s' : Snake) (t t' : Tape) :
  move s t = Ok (s', t') -> positions s' <> [].
Proof.
  intros Hm. destruct (positions s) as [|head rest] eqn:Hp.
  - rewrite (move_empty s t Hp) in Hm. discriminate.
  - destruct (collides s) eqn:Hc.
    + rewrite (move_eq s head rest t Hp), Hc in Hm.
      apply reset_ok in Hm. destruct Hm as [r [d [_ [_ ->]]]]. discriminate.
    + destruct (move_free s head rest t Hp Hc) as [s0 [Hm0 [_ [Hps _]]]].
      rewrite Hm0 in Hm. injection Hm as <- _.
      destruct Hps as [-> | ->]; discriminate.
Qed.

Lemma at_point_nonempty (p : Point) (g : Game) :
  at_point p g -> positions (snake g) <> [].
Proof.
  induction 1 as [t g t' Hs | g events t s t' _ IH Hk | g _ IH
                 | g t s t' _ IH Hm | c g fuel t g' t' _ IH Hc];
    cbn [snake] in *.
  - apply main_setup_ok in Hs. destruct Hs as [-> _]. discriminate.
  - apply handle_keys_fields in Hk. destruct Hk as [_ [_ [-> _]]]. exact IH.
  - destruct (update_direction_fields (snake g)) as [_ [-> _]]. exact IH.
  - exact (move_nonempty _ _ _ _ Hm).
  - apply check_apple_inv in Hc.
    destruct Hc as [head [rest [Hp [[_ [-> _]] | [_ [-> _]]]]]];
      [exact IH|]. cbn [grow positions]. exact IH.
Qed.

(** C10: the body of a new snake has a cell; [update_direction] leaves the
    body alone; whatever [move] and [reset] return has a cell; and at every
    place [main] reaches the body is some [head :: rest], so that
    [get_head_position] returns [head] and [move] raises no index error. *)
Theorem body_never_empty :
  positions Snake_init <> [] /\
  (forall s, positions (update_direction s) = positions s) /\
  (forall s t s' t', move s t = Ok (s', t') -> positions s' <> []) /\
  (forall s t s' t', reset s t = Ok (s', t') -> positions s' <> []) /\
  (forall p g,
      at_point p g ->
      exists head rest,
        positions (snake g) = head :: rest /\
        (forall t, get_head_position (snake g) t = Ok (head, t)) /\
        (forall t, move (snake g) t <> Raise IndexError)).
Proof.
  split; [discriminate|]. split; [|split; [|split]].
  - intros s. apply update_direction_fields.
  - intros s t s' t'. apply move_nonempty.
  - intros s t s' t' Hr. apply reset_ok in Hr.
    destruct Hr as [r [d [_ [_ ->]]]]. discriminate.
  - intros p g Hg. pose proof (at_point_nonempty p g Hg) as Hne.
    destruct (positions (snake g)) as [|head rest] eqn:Hp; [contradiction|].
    exists head, rest. split; [reflexivity|]. split.
    + intros t. unfold get_head_position. rewrite Hp. reflexivity.
    + intros t. rewrite (move_eq (snake g) head rest t Hp).
      destruct (collides (snake g)); [|discriminate].
      destruct t as [|r t0]; [discriminate|].
      destruct (reset_draw (snake g) r t0) as [d [_ ->]]. discriminate.
Qed.

Lemma body_never_empty_witness :
  (exists s, move square_snake [3] = Ok (s, []) /\ positions s <> []) /\
  get_head_position (snake square_game) [] = Ok ((380, 220), []).
Proof.
  destruct body_never_empty as [_ [_ [Hmove [_ Hat]]]].
  split.
  - exists {| base := base square_snake;
              positions := [(320, 240)];
              direction := RIGHT;
              next_direction := None;
              length := 1;
              last := Some (360, 240) |}.
    split; [reflexivity|].
    exact (Hmove square_snake [3] _ [] eq_refl).
  - destruct (Hat BeforeKeys square_game
                (main_at_point 0%nat square_inputs square_tape []
                               square_game eq_refl))
      as [head [rest [Hp [Hh _]]]].
    injection Hp as <- _. exact (Hh []).
Defined.

(** ** Eating *)

Lemma while_on_snake_free (fuel : nat) (s : Snake) (a : Apple) (t : Tape) :
  mem (position a) (positions s) = false ->
  while_on_snake fuel s a t = Ok (a, t).
Proof.
  intros Hfree. destruct fuel; cbn [while_on_snake]; rewrite Hfree;
    reflexivity.
Qed.

Lemma relocate_draws (s : Snake) (free : Z * Z) (t : Tape) :
  mem (cell_of_draws free) (positions s) = false ->
  forall occupied fuel a,
    Forall (fun d => mem (cell_of_draws d) (positions s) = true) occupied ->
    (List.length occupied <= fuel)%nat ->
    (a' <- randomize_position a ;; while_on_snake fuel s a')
      (tape_of (occupied ++ [free]) ++ t)
    = Ok ({| position := cell_of_draws free;
             body_color := body_color a |}, t).
Proof.
  intros Hfree. induction occupied as [|d occ IH]; intros fuel a Hocc Hfuel.
  - destruct free as [rx ry].
    change (tape_of ([] ++ [(rx, ry)]) ++ t) with (rx :: ry :: t).
    rewrite (bind_eq _ _ _ _ _ (randomize_position_draws a rx ry t)).
    apply while_on_snake_free. exact Hfree.
  - destruct d as [rx ry].
    change (tape_of (((rx, ry) :: occ) ++ [free]) ++ t)
      with (rx :: ry :: tape_of (occ ++ [free]) ++ t).
    rewrite (bind_eq _ _ _ _ _ (randomize_position_draws a rx ry _)).
    inversion Hocc as [|d' occ' Hd Hrest]; subst.
    destruct fuel as [|fuel]; [simpl in Hfuel; lia|].
    cbn [while_on_snake position]. rewrite Hd.
    apply (IH fuel {| position := cell_of_draws (rx, ry);
                      body_color := body_color a |});
      [exact Hrest | simpl in Hfuel; lia].
Qed.

(** C6: when the head of the snake is on the apple, a returning
    [check_apple] has added exactly 1 to [length], has left the body as it
    was and has put the apple on a cell that is not in the body; the same
    holds for the whole round of [main] when the head is on the apple after
    [move]; and [check_apple] does return, with the apple on the first free
    cell drawn, when the generator draws one after at most [fuel] cells of
    the body. *)
Theorem eating_grows_and_relocates :
  (forall fuel g t g' t' head rest,
      positions (snake g) = head :: rest ->
      head = position (apple g) ->
      check_apple fuel g t = Ok (g', t') ->
      length (snake g') = length (snake g) + 1 /\
      positions (snake g') = positions (snake g) /\
      mem (position (apple g')) (positions (snake g')) = false) /\
  (forall fuel events g t s1 t1 s2 t2 g' t',
      handle_keys events (snake g) t = Ok (s1, t1) ->
      move (update_direction s1) t1 = Ok (s2, t2) ->
      hd_error (positions s2) = Some (position (apple g)) ->
      main_iteration fuel events g t = Ok (g', t') ->
      length (snake g') = length s2 + 1 /\
      positions (snake g') = positions s2 /\
      mem (position (apple g')) (positions (snake g')) = false) /\
  (forall fuel g t head rest occupied free,
      positions (snake g) = head :: rest ->
      head = position (apple g) ->
      Forall (fun d => mem (cell_of_draws d) (positions (snake g)) = true)
             occupied ->
      mem (cell_of_draws free) (positions (snake g)) = false ->
      (List.length occupied <= fuel)%nat ->
      check_apple fuel g (tape_of (occupied ++ [free]) ++ t)
      = Ok ({| snake := grow (snake g);
               apple := {| position := cell_of_draws free;
                           body_color := body_color (apple g) |} |}, t)).
Proof.
  assert (Hcheck : forall fuel g t g' t' head rest,
             positions (snake g) = head :: rest ->
             head = position (apple g) ->
             check_apple fuel g t = Ok (g', t') ->
             length (snake g') = length (snake g) + 1 /\
             positions (snake g') = positions (snake g) /\
             mem (position (apple g')) (positions (snake g')) = false).
  { intros fuel g t g' t' head rest Hp Hh Hc.
    apply check_apple_inv in Hc.
    destruct Hc as [head' [rest' [Hp' [[Hne _] | [_ [Hg [Hfree _]]]]]]].
    - rewrite Hp in Hp'. injection Hp' as <- _. contradiction.
    - rewrite Hg. cbn [grow length positions]. auto. }
  split; [exact Hcheck|]. split.
  - intros fuel events g t s1 t1 s2 t2 g' t' Hk Hm Hh Hi.
    unfold main_iteration in Hi.
    rewrite (bind_eq _ _ _ _ _ Hk), (bind_eq _ _ _ _ _ Hm) in Hi.
    assert (Hp : exists rest, positions s2 = position (apple g) :: rest).
    { destruct (positions s2) as [|head rest]; [discriminate|].
      injection Hh as ->. exists rest. reflexivity. }
    destruct Hp as [rest Hp].
    exact (Hcheck fuel {| snake := s2; apple := apple g |} t2 g' t'
                  _ rest Hp eq_refl Hi).
  - intros fuel g t head rest occupied free Hp Hh Hocc Hfree Hfuel.
    unfold check_apple, get_head_position. rewrite Hp.
    unfold bind at 1. unfold ret at 1.
    rewrite Hh, pair_eqb_refl.
    pose proof (relocate_draws (grow (snake g)) free t Hfree occupied fuel
                               (apple g) Hocc Hfuel) as Hr.
    unfold bind in Hr |- *.
    destruct (randomize_position (apple g)
                (tape_of (occupied ++ [free]) ++ t)) as [[a1 t1]|e];
      [|discriminate].
    rewrite Hr. reflexivity.
Qed.

Lemma eating_grows_and_relocates_witness :
  exists g',
    main_iteration 2 [] fed_game [18; 12; 17; 12; 5; 5] = Ok (g', []) /\
    length (snake g') = 3 /\
    positions (snake g') = [(360, 240); (340, 240)] /\
    position (apple g') = (100, 100).
Proof.
  destruct eating_grows_and_relocates as [_ [Hround Htotal]].
  pose (s2 := {| base := base (snake fed_game);
                 positions := [(360, 240); (340, 240)];
                 direction := RIGHT;
                 next_direction := None;
                 length := 2;
                 last := Some (340, 240) |}).
  pose proof (Htotal 2%nat {| snake := s2; apple := apple fed_game |} []
                (360, 240) [(340, 240)] [(18, 12); (17, 12)] (5, 5)
                eq_refl eq_refl
                ltac:(repeat constructor) eq_refl
                ltac:(simpl; lia)) as Hc.
  eexists. split; [exact Hc|].
  destruct (Hround 2%nat [] fed_game [18; 12; 17; 12; 5; 5]
              (snake fed_game) [18; 12; 17; 12; 5; 5]
              s2 [18; 12; 17; 12; 5; 5] _ []
              eq_refl eq_refl eq_refl Hc) as [Hl [Hp _]].
  split; [exact Hl|]. split; [exact Hp | reflexivity].
Defined.

(** ** Growth comes one round late *)


(** ** Rounds of the loop *)

Lemma handle_keys_any_tape (events : list Event) :
  forall s t s1 t1,
    handle_keys events s t = Ok (s1, t1) ->
    forall u, handle_keys events s u = Ok (s1, u).
Proof.
  induction events as [|ev rest IH]; intros s t s1 t1 H u.
  - inversion H; subst. reflexivity.
  - destruct ev as [|key|]; cbn [handle_keys] in *.
    + discriminate.
    + exact (IH _ _ _ _ H u).
    + exact (IH _ _ _ _ H u).
Qed.




Lemma check_apple_skips (fuel : nat) (g : Game) (t : Tape)
      (head : Pair) (rest : list Pair) :
  positions (snake g) = head :: rest ->
  head <> position (apple g) ->
  check_apple fuel g t = Ok (g, t).
Proof.
  intros Hp Hne. unfold check_apple, get_head_position. rewrite Hp.
  unfold bind at 1. unfold ret at 1.
  apply pair_eqb_neq in Hne. rewrite Hne. reflexivity.
Qed.

Lemma check_apple_eats (fuel : nat) (g : Game) (t : Tape)
      (head : Pair) (rest : list Pair) (occupied : list (Z * Z))
      (free : Z * Z) :
  positions (snake g) = head :: rest ->
  head = position (apple g) ->
  Forall (fun d => mem (cell_of_draws d) (positions (snake g)) = true)
         occupied ->
  mem (cell_of_draws free) (positions (snake g)) = false ->
  (List.length occupied <= fuel)%nat ->
  check_apple fuel g (tape_of (occupied ++ [free]) ++ t)
  = Ok ({| snake := grow (snake g);
           apple := {| position := cell_of_draws free;
                       body_color := body_color (apple g) |} |}, t).
Proof.
  intros Hp Hh Hocc Hfree Hfuel.
  unfold check_apple, get_head_position. rewrite Hp.
  unfold bind at 1. unfold ret at 1.
  rewrite Hh, pair_eqb_refl.
  pose proof (relocate_draws (grow (snake g)) free t Hfree occupied fuel
                             (apple g) Hocc Hfuel) as Hr.
  unfold bind in Hr |- *.
  destruct (randomize_position (apple g)
              (tape_of (occupied ++ [free]) ++ t)) as [[a1 t1]|e];
    [|discriminate].
  rewrite Hr. reflexivity.
Qed.





(** ** A collision and a meal in one round *)

(** A round whose [move] collides, as far as the apple is looked for. *)
Lemma round_collides (events : list Event) (g : Game) (t0 t1 : Tape)
      (s1 : Snake) (head : Pair) (rest : list Pair) (r : Z) (u : Tape) :
  handle_keys events (snake g) t0 = Ok (s1, t1) ->
  positions (snake g) = head :: rest ->
  collides (update_direction s1) = true ->
  exists s2,
    positions s2 = [board_center] /\
    length s2 = 1 /\
    forall fuel,
      main_iteration fuel events g (r :: u)
      = check_apple fuel {| snake := s2; apple := apple g |} u.
Proof.
  intros Hk Hp Hc.
  pose proof (handle_keys_any_tape events _ _ _ _ Hk) as Hk'.
  apply handle_keys_fields in Hk. destruct Hk as [_ [_ [Hp1 _]]].
  destruct (update_direction_fields s1) as [_ [Hpu _]].
  rewrite Hp1, Hp in Hpu.
  destruct (reset_draw (update_direction s1) r u) as [d [_ Hr]].
  exists {| base := base (update_direction s1);
            positions := [(SCREEN_WIDTH / 2, SCREEN_HEIGHT / 2)];
            direction := d;
            next_direction := None;
            length := 1;
            last := last (update_direction s1) |}.
  split; [reflexivity|]. split; [reflexivity|].
  intros fuel. unfold main_iteration.
  rewrite (bind_eq _ _ _ _ _ (Hk' (r :: u))).
  assert (Hm : move (update_direction s1) (r :: u)
               = reset (update_direction s1) (r :: u))
    by (rewrite (move_eq (update_direction s1) head rest (r :: u) Hpu), Hc;
        reflexivity).
  rewrite Hr in Hm. rewrite (bind_eq _ _ _ _ _ Hm). reflexivity.
Qed.

(** C8, as the code has it: in a round whose [move] collides, the snake
    is back on the centre of the board when [main] looks for the apple.
    With the apple on another cell the round returns on every tape that
    has a draw for [reset], and nothing is eaten: [length] is 1 and the
    apple stays.  With the apple on the centre the round returns as soon
    as the generator draws a cell other than the centre, and the snake
    eats in this same round: [length] is 2 and the apple is on that
    cell.  No round whose [move] collides ends otherwise. *)
Theorem collision_round :
  forall events g t0 s1 t1 head rest,
    handle_keys events (snake g) t0 = Ok (s1, t1) ->
    positions (snake g) = head :: rest ->
    collides (update_direction s1) = true ->
    (position (apple g) <> board_center ->
     forall fuel r t,
     exists g',
       main_iteration fuel events g (r :: t) = Ok (g', t) /\
       positions (snake g') = [board_center] /\
       length (snake g') = 1 /\
       apple g' = apple g) /\
    (position (apple g) = board_center ->
     forall fuel r occupied free t,
       Forall (fun d => cell_of_draws d = board_center) occupied ->
       cell_of_draws free <> board_center ->
       (List.length occupied <= fuel)%nat ->
       exists g',
         main_iteration fuel events g
                        (r :: tape_of (occupied ++ [free]) ++ t)
         = Ok (g', t) /\
         positions (snake g') = [board_center] /\
         length (snake g') = 2 /\
         position (apple g') = cell_of_draws free) /\
    (forall fuel t g' t',
        main_iteration fuel events g t = Ok (g', t') ->
        positions (snake g') = [board_center] /\
        ((position (apple g) <> board_center /\
          length (snake g') = 1 /\
          apple g' = apple g) \/
         (position (apple g) = board_center /\
          length (snake g') = 2 /\
          position (apple g') <> board_center))).
Proof.
  intros events g t0 s1 t1 head rest Hk Hp Hc.
  split; [|split].
  - intros Hne fuel r t.
    destruct (round_collides events g t0 t1 s1 head rest r t Hk Hp Hc)
      as [s2 [Hp2 [Hl2 Hi]]].
    exists {| snake := s2; apple := apple g |}. rewrite Hi.
    split; [|cbn [snake apple]; auto].
    apply (check_apple_skips fuel {| snake := s2; apple := apple g |} t
                             board_center []); [exact Hp2|].
    intros E. apply Hne. symmetry. exact E.
  - intros He fuel r occupied free t Hocc Hfree Hfuel.
    destruct (round_collides events g t0 t1 s1 head rest r
                (tape_of (occupied ++ [free]) ++ t) Hk Hp Hc)
      as [s2 [Hp2 [Hl2 Hi]]].
    eexists. rewrite Hi.
    rewrite (check_apple_eats fuel {| snake := s2; apple := apple g |} t
               board_center [] occupied free Hp2 (eq_sym He)).
    + split; [reflexivity|]. cbn [snake apple grow positions length
        position]. rewrite Hp2, Hl2. repeat split.
    + cbn [snake]. rewrite Hp2. apply Forall_forall. intros d Hd.
      rewrite Forall_forall in Hocc. rewrite (Hocc d Hd).
      cbn [mem existsb]. rewrite pair_eqb_refl. reflexivity.
    + cbn [snake]. rewrite Hp2. cbn [mem existsb].
      apply pair_eqb_neq in Hfree. rewrite Hfree. reflexivity.
    + exact Hfuel.
  - intros fuel t g' t' Hi.
    pose proof (handle_keys_any_tape events _ _ _ _ Hk t) as Hk'.
    unfold main_iteration in Hi.
    rewrite (bind_eq _ _ _ _ _ Hk') in Hi.
    apply handle_keys_fields in Hk. destruct Hk as [_ [_ [Hp1 _]]].
    destruct (update_direction_fields s1) as [_ [Hpu _]].
    rewrite Hp1, Hp in Hpu.
    apply bind_ok in Hi. destruct Hi as [s2 [t2 [Hm Hi]]].
    rewrite (move_eq (update_direction s1) head rest t Hpu), Hc in Hm.
    apply reset_ok in Hm. destruct Hm as [r [d [_ [_ ->]]]].
    apply check_apple_inv in Hi. cbn [snake apple positions] in Hi.
    destruct Hi as [head' [rest' [Hp' Hcases]]].
    injection Hp' as <- _.
    change (SCREEN_WIDTH / 2, SCREEN_HEIGHT / 2) with board_center
      in Hcases.
    destruct Hcases as [[Hne [-> _]] | [He [-> [Hfree _]]]];
      cbn [snake apple grow positions length]; (split; [reflexivity|]).
    + left. auto.
    + right. repeat split; auto.
      intros Hcenter. rewrite Hcenter in Hfree.
      cbn [mem existsb] in Hfree. rewrite pair_eqb_refl in Hfree.
      discriminate.
Qed.

Lemma collision_round_witness :
  (exists g',
      main_iteration 0 [KEYDOWN K_DOWN]
        {| snake := snake square_game;
           apple := {| position := (0, 0);
                       body_color := Some APPLE_COLOR |} |}
        [3] = Ok (g', []) /\
      positions (snake g') = [(320, 240)] /\
      length (snake g') = 1 /\
      position (apple g') = (0, 0)) /\
  (exists g',
      main_iteration 1 [KEYDOWN K_DOWN] square_game [3; 16; 12; 5; 7]
      = Ok (g', []) /\
      length (snake g') = 2 /\
      position (apple g') = (100, 140)).
Proof.
  pose (g := {| snake := snake square_game;
                apple := {| position := (0, 0);
                            body_color := Some APPLE_COLOR |} |}).
  split.
  - destruct (collision_round [KEYDOWN K_DOWN] g []
                (handle_keydown K_DOWN (snake square_game)) []
                (380, 220) [(400, 220); (400, 240); (380, 240)]
                eq_refl eq_refl eq_refl) as [Hoff _].
    destruct (Hoff ltac:(discriminate) 0%nat 3 []) as [g' [Hi [Hp [Hl Ha]]]].
    exists g'. split; [exact Hi|]. split; [exact Hp|]. split; [exact Hl|].
    rewrite Ha. reflexivity.
  - destruct (collision_round [KEYDOWN K_DOWN] square_game []
                (handle_keydown K_DOWN (snake square_game)) []
                (380, 220) [(400, 220); (400, 240); (380, 240)]
                eq_refl eq_refl eq_refl) as [_ [Hon _]].
    destruct (Hon eq_refl 1%nat 3 [(16, 12)] (5, 7) []
                  ltac:(repeat constructor) ltac:(discriminate)
                  (le_n 1)) as [g' [Hi [_ [Hl Ha]]]].
    exists g'. split; [exact Hi|]. split; [exact Hl | exact Ha].
Defined.

(** C8, as the specification words it, fails in the seventh round of a run of
    [main]: the turn down makes the snake of [square_game] collide, the
    apple lies on the centre of the board, and the round ends with
    [length] 2 and the apple on another cell. *)
Lemma collision_round_feeds :
  main 0 square_inputs square_tape = Ok (square_game, []) /\
  (s <- handle_keys [KEYDOWN K_DOWN] (snake square_game) ;;
   ret (collides (update_direction s))) [3; 5; 7] = Ok (true, [3; 5; 7]) /\
  main_iteration 0 [KEYDOWN K_DOWN] square_game [3; 5; 7]
  = Ok ({| snake :=
             {| base := base square_snake;
                positions := [(320, 240)];
                direction := RIGHT;
                next_direction := None;
                length := 2;
                last := Some (360, 240) |};
           apple := {| position := (100, 140);
                       body_color := Some APPLE_COLOR |} |}, []) /\
  position (apple square_game) = (320, 240).
Proof. repeat split. Qed.

(** ** The first apple *)

(** C9 does not hold of the code: [Apple.__init__] draws a cell without
    looking at the snake, and with the draws 16 and 12 the first apple
    lies on the one cell of the new snake. *)
Theorem first_apple_on_snake :
  main_setup [16; 12]
  = Ok ({| snake := Snake_init;
           apple := {| position := (320, 240);
                       body_color := Some APPLE_COLOR |} |}, []) /\
  positions Snake_init = [(320, 240)] /\
  mem (320, 240) (positions Snake_init) = true.
Proof. repeat split. Qed.

(** * Further properties of the code *)

(** ** Directions *)

Lemma opposite_involutive (d : Pair) : opposite (opposite d) = d.
Proof.
  destruct d as [dx dy]. unfold opposite. cbn [fst snd].
  rewrite !Z.opp_involutive. reflexivity.
Qed.

Lemma cardinal_not_self_opposite (d : Pair) : cardinal d -> d <> opposite d.
Proof.
  intros [<- | [<- | [<- | [<- | []]]]]; discriminate.
Qed.

Lemma key_direction_cardinal (key : Key) (d : Pair) :
  key_direction key = Some d -> cardinal d.
Proof.
  unfold cardinal. destruct key; intros E; inversion E; subst; simpl; auto.
Qed.

Lemma accepted_inputs_cardinal (committed d : Pair) (events : list Event) :
  In d (accepted_inputs committed events) ->
  cardinal d /\ committed <> opposite d /\ d <> opposite committed.
Proof.
  intros Hin. apply accepted_inputs_In in Hin.
  destruct Hin as [key [_ [Hk Hne]]].
  split; [exact (key_direction_cardinal key d Hk)|].
  split; [exact Hne|].
  intros E. apply Hne. rewrite E. symmetry. apply opposite_involutive.
Qed.

Lemma last_map_Some {A : Type} (l : list A) (d : A) :
  List.last (map Some l) (Some d) = Some (List.last l d).
Proof.
  revert d. induction l as [|x l IH]; intros d; [reflexivity|].
  cbn [map]. rewrite !last_cons_default. apply IH.
Qed.

Lemma last_In_cons {A : Type} (l : list A) (d : A) :
  In (List.last l d) (d :: l).
Proof.
  revert d. induction l as [|x l IH]; intros d; [left; reflexivity|].
  rewrite last_cons_default. right. apply IH.
Qed.

Lemma pending_after_keys (events : list Event) (s s' : Snake) (t t' : Tape) :
  next_direction s = None ->
  handle_keys events s t = Ok (s', t') ->
  direction s' = direction s /\
  ((accepted_inputs (direction s) events = [] /\ next_direction s' = None) \/
   (In (List.last (accepted_inputs (direction s) events) (direction s))
       (accepted_inputs (direction s) events) /\
    next_direction s'
    = Some (List.last (accepted_inputs (direction s) events)
                      (direction s)))).
Proof.
  intros Hn Hk. apply handle_keys_fields in Hk.
  destruct Hk as [_ [_ [_ [Hd [_ [_ Hn']]]]]].
  split; [exact Hd|]. rewrite Hn in Hn'.
  destruct (accepted_inputs (direction s) events) as [|x l].
  - left. auto.
  - right. cbn [map] in Hn'. rewrite last_cons_default in Hn'.
    rewrite last_map_Some in Hn'. rewrite last_cons_default.
    split; [apply last_In_cons | exact Hn'].
Qed.

(** [update_direction] leaves no direction pending; the direction is the
    pending one if there was one and the old one otherwise; a second call
    changes nothing. *)
Lemma update_direction_commits :
  forall s,
    next_direction (update_direction s) = None /\
    direction (update_direction s)
    = match next_direction s with
      | Some d => d
      | None => direction s
      end /\
    update_direction (update_direction s) = update_direction s.
Proof.
  intros s. unfold update_direction.
  destruct (next_direction s) as [d|] eqn:Hn;
    cbn [next_direction direction]; rewrite ?Hn; repeat split.
Qed.

Lemma handle_keys_quit_raises (events : list Event) :
  forall s t, In QUIT events -> handle_keys events s t = Raise SystemExit.
Proof.
  induction events as [|ev rest IH]; intros s t Hin; [contradiction|].
  destruct ev as [|key|]; cbn [handle_keys].
  - reflexivity.
  - apply IH. destruct Hin as [E|Hin]; [discriminate | exact Hin].
  - apply IH. destruct Hin as [E|Hin]; [discriminate | exact Hin].
Qed.

(** X1: [handle_keys] ends the program exactly when one of the events is a
    quit, whatever the other events are; it raises nothing else. *)
Theorem handle_keys_quit :
  forall events s t,
    (In QUIT events <-> handle_keys events s t = Raise SystemExit) /\
    (~ In QUIT events <-> exists s', handle_keys events s t = Ok (s', t)) /\
    (forall e, handle_keys events s t = Raise e -> e = SystemExit).
Proof.
  intros events s t.
  assert (Hdec : In QUIT events \/ ~ In QUIT events).
  { induction events as [|ev rest IH]; [right; intros []|].
    destruct IH as [IH|IH]; [left; right; exact IH|].
    destruct ev; [left; left; reflexivity | right | right];
      intros [E|Hin]; try discriminate; contradiction. }
  split; [|split].
  - split; [apply handle_keys_quit_raises|].
    intros Hr. destruct Hdec as [Hin|Hno]; [exact Hin|].
    destruct (handle_keys_returns events s t Hno) as [s' Hk].
    rewrite Hk in Hr. discriminate.
  - split; [apply handle_keys_returns|].
    intros [s' Hk] Hin.
    rewrite (handle_keys_quit_raises events s t Hin) in Hk. discriminate.
  - intros e He. destruct Hdec as [Hin|Hno].
    + rewrite (handle_keys_quit_raises events s t Hin) in He.
      inversion He. reflexivity.
    + destruct (handle_keys_returns events s t Hno) as [s' Hk].
      rewrite Hk in He. discriminate.
Qed.

Lemma handle_keys_quit_witness :
  handle_keys [KEYDOWN K_UP; QUIT; KEYDOWN K_DOWN] Snake_init [7]
  = Raise SystemExit.
Proof.
  apply (proj1 (handle_keys_quit [KEYDOWN K_UP; QUIT; KEYDOWN K_DOWN]
                                 Snake_init [7])).
  right. left. reflexivity.
Defined.

(** X2: when no direction is pending and the snake has one of the four
    directions, the direction it has after [handle_keys] and
    [update_direction] is the last accepted one of the round, or the old
    one when none was accepted; it is one of the four and never the
    opposite of the old one. *)
Theorem round_direction :
  forall events s t s' t',
    next_direction s = None ->
    cardinal (direction s) ->
    handle_keys events s t = Ok (s', t') ->
    direction (update_direction s')
    = List.last (accepted_inputs (direction s) events) (direction s) /\
    cardinal (direction (update_direction s')) /\
    direction (update_direction s') <> opposite (direction s).
Proof.
  intros events s t s' t' Hn Hc Hk.
  destruct (pending_after_keys events s s' t t' Hn Hk)
    as [Hd [[Hnil Hn'] | [Hin Hn']]];
    unfold update_direction; rewrite Hn'.
  - rewrite Hnil, Hd. cbn [List.last]. repeat split; [exact Hc|].
    apply cardinal_not_self_opposite. exact Hc.
  - cbn [direction]. split; [reflexivity|].
    destruct (accepted_inputs_cardinal _ _ _ Hin) as [Hcard [_ Hne]].
    split; assumption.
Qed.

Lemma round_direction_witness :
  exists s',
    handle_keys [KEYDOWN K_LEFT; KEYDOWN K_UP; KEYDOWN K_LEFT] Snake_init []
    = Ok (s', []) /\
    direction (update_direction s') = UP.
Proof.
  exists (set_next_direction Snake_init UP). split; [reflexivity|].
  exact (proj1 (round_direction
                  [KEYDOWN K_LEFT; KEYDOWN K_UP; KEYDOWN K_LEFT]
                  Snake_init [] (set_next_direction Snake_init UP) []
                  eq_refl (or_intror (or_intror (or_intror
                                                   (or_introl eq_refl))))
                  eq_refl)).
Defined.

(** ** Cells of the board *)

Lemma on_board_center : on_board (SCREEN_WIDTH / 2, SCREEN_HEIGHT / 2).
Proof.
  exists 16, 12. change GRID_WIDTH with 32. change GRID_HEIGHT with 24.
  split; [lia|]. split; [lia | reflexivity].
Qed.

Lemma cell_of_draws_on_board (d : Z * Z) : on_board (cell_of_draws d).
Proof.
  exists (fst d mod GRID_WIDTH), (snd d mod GRID_HEIGHT).
  split; [|split]; try reflexivity; apply Z.mod_pos_bound; reflexivity.
Qed.

Lemma on_board_on_screen (c : Pair) : on_board c -> on_screen c.
Proof.
  intros [col [row [Hc [Hr ->]]]]. unfold on_screen. cbn [fst snd].
  change GRID_WIDTH with 32 in Hc. change GRID_HEIGHT with 24 in Hr.
  change GRID_SIZE with 20. change SCREEN_WIDTH with 640.
  change SCREEN_HEIGHT with 480. lia.
Qed.

Lemma new_position_on_board (head d : Pair) :
  on_board head -> on_board (new_position head d).
Proof.
  intros [col [row [_ [_ ->]]]]. destruct d as [dx dy].
  rewrite new_position_grid.
  exists ((col + dx) mod GRID_WIDTH), ((row + dy) mod GRID_HEIGHT).
  split; [|split]; try reflexivity; apply Z.mod_pos_bound; reflexivity.
Qed.

Lemma new_position_moves (head d : Pair) :
  on_board head -> cardinal d -> new_position head d <> head.
Proof.
  intros [col [row [Hc [Hr ->]]]] Hd E.
  change GRID_WIDTH with 32 in Hc. change GRID_HEIGHT with 24 in Hr.
  destruct Hd as [<- | [<- | [<- | [<- | []]]]];
    unfold UP, DOWN, LEFT, RIGHT in E; rewrite new_position_grid in E;
    change GRID_WIDTH with 32 in E; change GRID_HEIGHT with 24 in E;
    change GRID_SIZE with 20 in E; injection E as Ex Ey;
    Z.to_euclidean_division_equations; lia.
Qed.

Lemma In_removelast {A : Type} (a : A) (l : list A) :
  In a (removelast l) -> In a l.
Proof.
  destruct l as [|x l]; [intros []|]. intros Hin.
  rewrite (app_removelast_last x (l := x :: l)) by discriminate.
  apply in_or_app. left. exact Hin.
Qed.

Lemma NoDup_removelast {A : Type} (l : list A) :
  NoDup l -> NoDup (removelast l).
Proof.
  destruct l as [|x l]; [intros _; constructor|]. intros Hnd.
  rewrite (app_removelast_last x (l := x :: l)) in Hnd by discriminate.
  exact (NoDup_app_remove_r _ _ Hnd).
Qed.

Lemma last_not_in_removelast {A : Type} (l : list A) (d : A) :
  l <> [] -> NoDup l -> ~ In (List.last l d) (removelast l).
Proof.
  intros Hne Hnd.
  rewrite (app_removelast_last d Hne) in Hnd.
  apply NoDup_remove_2 in Hnd. rewrite app_nil_r in Hnd. exact Hnd.
Qed.

Lemma Forall_removelast {A : Type} (P : A -> Prop) (l : list A) :
  Forall P l -> Forall P (removelast l).
Proof.
  rewrite !Forall_forall. intros H a Hin. apply H.
  apply In_removelast. exact Hin.
Qed.

(** ** What every state of a run satisfies *)

Lemma pending_none (p : Point) (s : Snake) :
  pending_ok p s -> p <> BeforeUpdate -> next_direction s = None.
Proof.
  unfold pending_ok. destruct (next_direction s) as [d|]; [|reflexivity].
  intros [Hp _] Hne. contradiction.
Qed.

Lemma while_on_snake_on_board (fuel : nat) (s : Snake) :
  forall a t a' t',
    on_board (position a) ->
    while_on_snake fuel s a t = Ok (a', t') ->
    on_board (position a').
Proof.
  induction fuel as [|fuel IH]; intros a t a' t' Hb H;
    cbn [while_on_snake] in H;
    destruct (mem (position a) (positions s)); try discriminate;
    try (inversion H; subst; exact Hb).
  apply bind_ok in H. destruct H as [a1 [t1 [Hr Hw]]].
  apply randomize_position_ok in Hr. destruct Hr as [rx [ry [_ [Hpos _]]]].
  apply (IH a1 t1 a' t'); [|exact Hw].
  rewrite Hpos. apply cell_of_draws_on_board.
Qed.

Lemma check_apple_on_board (fuel : nat) (g g' : Game) (t t' : Tape) :
  on_board (position (apple g)) ->
  check_apple fuel g t = Ok (g', t') ->
  on_board (position (apple g')).
Proof.
  intros Hb H. unfold check_apple in H.
  apply bind_ok in H. destruct H as [head [t0 [_ H]]].
  destruct (pair_eqb head (position (apple g))).
  - apply bind_ok in H. destruct H as [a1 [t1 [Hr H]]].
    apply bind_ok in H. destruct H as [a2 [t2 [Hw H]]].
    inversion H; subst g' t'. cbn [apple].
    apply randomize_position_ok in Hr. destruct Hr as [rx [ry [_ [Hpos _]]]].
    apply (while_on_snake_on_board fuel (grow (snake g)) a1 t1 a2 t2);
      [|exact Hw].
    rewrite Hpos. apply cell_of_draws_on_board.
  - inversion H; subst. exact Hb.
Qed.

Lemma move_sound (s s' : Snake) (t t' : Tape) :
  cardinal (direction s) ->
  next_direction s = None ->
  Forall on_board (positions s) ->
  NoDup (positions s) ->
  move s t = Ok (s', t') ->
  cardinal (direction s') /\
  next_direction s' = None /\
  Forall on_board (positions s') /\
  NoDup (positions s').
Proof.
  intros Hd Hn Hb Hnd Hm.
  destruct (positions s) as [|head rest] eqn:Hp.
  - rewrite (move_empty s t Hp) in Hm. discriminate.
  - destruct (collides s) eqn:Hc.
    + rewrite (move_eq s head rest t Hp), Hc in Hm.
      apply reset_ok in Hm. destruct Hm as [r [d [_ [Hin ->]]]].
      cbn [direction next_direction positions].
      split; [exact Hin|]. split; [reflexivity|]. split.
      * constructor; [apply on_board_center | constructor].
      * constructor; [intros [] | constructor].
    + destruct (move_free s head rest t Hp Hc)
        as [s0 [Hm0 [_ [Hps [_ [Hd0 [Hn0 _]]]]]]].
      rewrite Hm0 in Hm. injection Hm as <- _.
      rewrite Hd0, Hn0. split; [exact Hd|]. split; [exact Hn|].
      assert (Hhead : on_board head) by (inversion Hb; assumption).
      assert (Hnew : on_board (new_position head (direction s)))
        by (apply new_position_on_board; exact Hhead).
      assert (Hfresh : ~ In (new_position head (direction s))
                         (head :: rest)).
      { intros [E | Hin].
        - exact (new_position_moves head (direction s) Hhead Hd
                                    (eq_sym E)).
        - rewrite (collides_cons s head rest Hp) in Hc.
          apply mem_In in Hin. congruence. }
      destruct Hps as [-> | ->]; split.
      * constructor; assumption.
      * constructor; assumption.
      * constructor; [exact Hnew | apply Forall_removelast; exact Hb].
      * constructor; [|apply NoDup_removelast; exact Hnd].
        intros Hin. apply Hfresh. apply In_removelast. exact Hin.
Qed.

Lemma at_point_sound (p : Point) (g : Game) : at_point p g -> sound p g.
Proof.
  induction 1 as [t g t' Hs | g events t s t' Hat IH Hk | g Hat IH
                 | g t s t' Hat IH Hm | c g fuel t g' t' Hat IH Hc];
    unfold sound in *; cbn [snake apple] in *.
  - apply main_setup_ok in Hs.
    destruct Hs as [-> [rx [ry [_ ->]]]].
    split; [right; right; right; left; reflexivity|].
    split; [exact I|]. split.
    { constructor; [apply on_board_center | constructor]. }
    split; [|apply cell_of_draws_on_board].
    constructor; [intros [] | constructor].
  - destruct IH as [Hd [Hpend [Hb [Hnd Ha]]]].
    pose proof (pending_none _ _ Hpend ltac:(discriminate)) as Hn.
    destruct (pending_after_keys events _ s t t' Hn Hk) as [Hd' Hcases].
    apply handle_keys_fields in Hk. destruct Hk as [_ [_ [Hp _]]].
    rewrite Hd', Hp. split; [exact Hd|].
    split; [|split; [exact Hb | split; [exact Hnd | exact Ha]]].
    unfold pending_ok. rewrite Hd'.
    destruct Hcases as [[_ ->] | [Hin ->]]; [exact I|].
    destruct (accepted_inputs_cardinal _ _ _ Hin) as [Hcard [Hne _]].
    auto.
  - destruct IH as [Hd [Hpend [Hb [Hnd Ha]]]].
    destruct (update_direction_fields (snake g)) as [_ [Hp _]].
    rewrite Hp. unfold pending_ok in *. unfold update_direction.
    destruct (next_direction (snake g)) as [d|] eqn:Hn;
      cbn [direction next_direction]; rewrite ?Hn.
    + destruct Hpend as [_ [Hcard _]]. auto 10.
    + auto 10.
  - destruct IH as [Hd [Hpend [Hb [Hnd Ha]]]].
    pose proof (pending_none _ _ Hpend ltac:(discriminate)) as Hn.
    destruct (move_sound _ _ _ _ Hd Hn Hb Hnd Hm) as [Hd' [Hn' [Hb' Hnd']]].
    unfold pending_ok. rewrite Hn'. auto 10.
  - destruct IH as [Hd [Hpend [Hb [Hnd Ha]]]].
    pose proof (pending_none _ _ Hpend ltac:(discriminate)) as Hn.
    pose proof (check_apple_on_board fuel g g' t t' Ha Hc) as Ha'.
    apply check_apple_inv in Hc.
    destruct Hc as [head [rest [_ [[_ [-> _]] | [_ [Hg _]]]]]].
    + unfold pending_ok. rewrite Hn. auto 10.
    + rewrite Hg. unfold pending_ok.
      cbn [grow direction next_direction positions]. rewrite Hn. auto 10.
Qed.

Lemma in_range (n k : Z) : 0 <= k < n -> In k (range n).
Proof.
  intros Hk. unfold range. apply in_map_iff.
  exists (Z.to_nat k). split; [lia|]. apply in_seq. lia.
Qed.

Lemma on_board_in_cells (c : Pair) : on_board c -> In c board_cells.
Proof.
  intros [col [row [Hc [Hr ->]]]]. unfold board_cells.
  apply in_flat_map. exists col. split; [apply in_range; exact Hc|].
  apply in_map_iff. exists row. split; [reflexivity|].
  apply in_range. exact Hr.
Qed.

Lemma board_cells_count : len board_cells = GRID_WIDTH * GRID_HEIGHT.
Proof. vm_compute. reflexivity. Qed.

(** X3: at every place of a run of [main] the snake has one of the four
    directions; a direction is pending only between [handle_keys] and
    [update_direction], and then it is one of the four and not the
    opposite of the snake's direction. *)
Theorem run_directions :
  forall p g,
    at_point p g ->
    cardinal (direction (snake g)) /\
    match next_direction (snake g) with
    | None => True
    | Some d =>
        p = BeforeUpdate /\ cardinal d /\
        direction (snake g) <> opposite d
    end.
Proof.
  intros p g H. destruct (at_point_sound p g H) as [Hd [Hp _]].
  split; [exact Hd | exact Hp].
Qed.

Lemma run_directions_witness :
  cardinal (direction (snake square_game)) /\
  cardinal (direction (update_direction
                         (handle_keydown K_DOWN (snake square_game)))).
Proof.
  pose proof (main_at_point 0%nat square_inputs square_tape []
                            square_game eq_refl) as H0.
  split.
  - exact (proj1 (run_directions BeforeKeys square_game H0)).
  - exact (proj1 (run_directions _ _
             (at_update _ (at_keys square_game [KEYDOWN K_DOWN] [] _ []
                                   H0 eq_refl)))).
Defined.

(** X4: at every place of a run of [main] every cell of the body and the
    apple are cells of the board: multiples of [GRID_SIZE] from column 0
    to [GRID_WIDTH - 1] and from row 0 to [GRID_HEIGHT - 1]. *)
Theorem run_on_board :
  forall p g,
    at_point p g ->
    Forall on_board (positions (snake g)) /\
    on_board (position (apple g)).
Proof.
  intros p g H. destruct (at_point_sound p g H) as [_ [_ [Hb [_ Ha]]]].
  split; [exact Hb | exact Ha].
Qed.

Lemma run_on_board_witness :
  Forall on_board [(380, 220); (400, 220); (400, 240); (380, 240)] /\
  on_board (320, 240).
Proof.
  exact (run_on_board BeforeKeys square_game
           (main_at_point 0%nat square_inputs square_tape []
                          square_game eq_refl)).
Defined.

(** X5: at every place of a run of [main] the cells of the body are
    pairwise different: the snake never lies on itself. *)
Theorem run_body_distinct :
  forall p g, at_point p g -> NoDup (positions (snake g)).
Proof.
  intros p g H. destruct (at_point_sound p g H) as [_ [_ [_ [Hnd _]]]].
  exact Hnd.
Qed.

Lemma run_body_distinct_witness :
  NoDup [(380, 220); (400, 220); (400, 240); (380, 240)].
Proof.
  exact (run_body_distinct BeforeKeys square_game
           (main_at_point 0%nat square_inputs square_tape []
                          square_game eq_refl)).
Defined.

(** X6: at every place of a run of [main] the body has at most as many
    cells as the board, [GRID_WIDTH * GRID_HEIGHT], and [length] is at
    most one more. *)
Theorem run_body_bounded :
  forall p g,
    at_point p g ->
    len (positions (snake g)) <= GRID_WIDTH * GRID_HEIGHT /\
    length (snake g) <= GRID_WIDTH * GRID_HEIGHT + 1.
Proof.
  intros p g H. destruct (at_point_sound p g H) as [_ [_ [Hb [Hnd _]]]].
  assert (Hlen : len (positions (snake g)) <= GRID_WIDTH * GRID_HEIGHT).
  { rewrite <- board_cells_count. unfold len. apply inj_le.
    apply NoDup_incl_length; [exact Hnd|].
    intros c Hin. apply on_board_in_cells.
    rewrite Forall_forall in Hb. apply Hb. exact Hin. }
  split; [exact Hlen|].
  pose proof (at_point_length p g H) as Hl.
  destruct p; cbn [length_at] in Hl; try (destruct Hl as [Hl|Hl]); lia.
Qed.

Lemma run_body_bounded_witness :
  len (positions (snake square_game)) <= GRID_WIDTH * GRID_HEIGHT /\
  length (snake square_game) <= GRID_WIDTH * GRID_HEIGHT + 1.
Proof.
  exact (run_body_bounded BeforeKeys square_game
           (main_at_point 0%nat square_inputs square_tape []
                          square_game eq_refl)).
Defined.

(** ** The apple and the body *)

Lemma main_iteration_inv (fuel : nat) (events : list Event) (g g' : Game)
      (t t' : Tape) :
  main_iteration fuel events g t = Ok (g', t') ->
  exists s1 s2 t2,
    handle_keys events (snake g) t = Ok (s1, t) /\
    move (update_direction s1) t = Ok (s2, t2) /\
    check_apple fuel {| snake := s2; apple := apple g |} t2 = Ok (g', t').
Proof.
  unfold main_iteration. intros H.
  apply bind_ok in H. destruct H as [s1 [t1 [Hk H]]].
  apply bind_ok in H. destruct H as [s2 [t2 [Hm Hc]]].
  pose proof (handle_keys_fields _ _ _ _ _ Hk) as [-> _].
  exists s1, s2, t2. auto.
Qed.

Lemma move_tail_incl (s s' : Snake) (t t' : Tape) :
  move s t = Ok (s', t') -> incl (tl (positions s')) (positions s).
Proof.
  intros Hm. destruct (positions s) as [|head rest] eqn:Hp.
  - rewrite (move_empty s t Hp) in Hm. discriminate.
  - destruct (collides s) eqn:Hc.
    + rewrite (move_eq s head rest t Hp), Hc in Hm.
      apply reset_ok in Hm. destruct Hm as [r [d [_ [_ ->]]]].
      intros c [].
    + destruct (move_free s head rest t Hp Hc) as [s0 [Hm0 [_ [Hps _]]]].
      rewrite Hm0 in Hm. injection Hm as <- _.
      destruct Hps as [-> | ->]; cbn [tl]; intros c Hin;
        [exact Hin | apply In_removelast; exact Hin].
Qed.

Lemma move_single (s s' : Snake) (t t' : Tape) :
  len (positions s) = 1 ->
  length s = 1 ->
  move s t = Ok (s', t') ->
  tl (positions s') = [].
Proof.
  intros Hlen Hl Hm.
  assert (Hok : body_length_ok s) by (right; lia).
  pose proof (move_length s s' t t' Hok Hm) as Hlen'.
  assert (Hl' : length s' = 1).
  { destruct (positions s) as [|head rest] eqn:Hp.
    - rewrite (move_empty s t Hp) in Hm. discriminate.
    - destruct (collides s) eqn:Hc.
      + rewrite (move_eq s head rest t Hp), Hc in Hm.
        apply reset_ok in Hm. destruct Hm as [r [d [_ [_ ->]]]]. reflexivity.
      + destruct (move_free s head rest t Hp Hc)
          as [s0 [Hm0 [_ [_ [Hl0 _]]]]].
        rewrite Hm0 in Hm. injection Hm as <- _. lia. }
  destruct (positions s') as [|h [|h2 r]]; try reflexivity.
  rewrite !len_cons in Hlen'. pose proof (len_nonneg r). lia.
Qed.

Lemma check_apple_apple_off (fuel : nat) (g g' : Game) (t t' : Tape) :
  ~ In (position (apple g)) (tl (positions (snake g))) ->
  check_apple fuel g t = Ok (g', t') ->
  apple_off g'.
Proof.
  intros Htl Hc. apply check_apple_inv in Hc.
  destruct Hc as [head [rest [Hp [[Hne [-> _]] | [_ [Hg [Hfree _]]]]]]];
    unfold apple_off.
  - destruct (mem (position (apple g)) (positions (snake g))) eqn:Hm;
      [|reflexivity].
    apply mem_In in Hm. rewrite Hp in Hm, Htl. cbn [tl] in Htl.
    destruct Hm as [E | Hin]; [contradiction (Hne E) | contradiction].
  - rewrite Hg. cbn [grow positions]. exact Hfree.
Qed.

Lemma main_iteration_apple_off (fuel : nat) (events : list Event)
      (g g' : Game) (t t' : Tape) :
  apple_off g \/ (len (positions (snake g)) = 1 /\ length (snake g) = 1) ->
  main_iteration fuel events g t = Ok (g', t') ->
  apple_off g'.
Proof.
  intros Hpre Hi. apply main_iteration_inv in Hi.
  destruct Hi as [s1 [s2 [t2 [Hk [Hm Hc]]]]].
  apply handle_keys_fields in Hk. destruct Hk as [_ [_ [Hp1 [_ [Hl1 _]]]]].
  destruct (update_direction_fields s1) as [_ [Hpu [Hlu _]]].
  rewrite Hp1 in Hpu. rewrite Hl1 in Hlu.
  apply (check_apple_apple_off fuel {| snake := s2; apple := apple g |}
                               g' t2 t'); [|exact Hc].
  cbn [snake apple]. destruct Hpre as [Hoff | [Hlen Hl]].
  - intros Hin. apply (move_tail_incl _ _ _ _ Hm) in Hin.
    rewrite Hpu in Hin. apply mem_In in Hin.
    unfold apple_off in Hoff. congruence.
  - rewrite <- Hpu in Hlen. rewrite <- Hlu in Hl.
    rewrite (move_single _ _ _ _ Hlen Hl Hm).
    intros [].
Qed.

Lemma main_loop_apple_off (fuel : nat) (inputs : list (list Event)) :
  forall g t g' t',
    apple_off g ->
    main_loop fuel inputs g t = Ok (g', t') ->
    apple_off g'.
Proof.
  induction inputs as [|events rest IH]; intros g t g' t' Hoff H.
  - inversion H; subst. exact Hoff.
  - cbn [main_loop] in H.
    apply bind_ok in H. destruct H as [g1 [t1 [Hi Hl]]].
    apply (IH g1 t1 g' t'); [|exact Hl].
    exact (main_iteration_apple_off fuel events g g1 t t1
                                    (or_introl Hoff) Hi).
Qed.

(** X7: a round of [main] that starts with the apple off the body ends
    with the apple off the body; and whatever cell the first apple is on,
    after one round or more of [main] the apple is on no cell of the
    body. *)
Theorem apple_off_body :
  (forall fuel events g t g' t',
      apple_off g ->
      main_iteration fuel events g t = Ok (g', t') ->
      apple_off g') /\
  (forall fuel events inputs t g t',
      main fuel (events :: inputs) t = Ok (g, t') ->
      apple_off g).
Proof.
  split.
  - intros fuel events g t g' t' Hoff Hi.
    exact (main_iteration_apple_off fuel events g g' t t'
                                    (or_introl Hoff) Hi).
  - intros fuel events inputs t g t' H. unfold main in H.
    apply bind_ok in H. destruct H as [g0 [t0 [Hs H]]].
    cbn [main_loop] in H.
    apply bind_ok in H. destruct H as [g1 [t1 [Hi Hl]]].
    apply (main_loop_apple_off fuel inputs g1 t1 g t'); [|exact Hl].
    apply (main_iteration_apple_off fuel events g0 g1 t0 t1); [|exact Hi].
    right. apply main_setup_ok in Hs. destruct Hs as [-> _].
    split; reflexivity.
Qed.

Lemma apple_off_body_witness :
  apple_off square_game /\
  (exists g, main 0 [[]] [16; 12] = Ok (g, []) /\ apple_off g) /\
  (exists g', main_iteration 0 [] square_game [] = Ok (g', []) /\
              apple_off g').
Proof.
  destruct apple_off_body as [Hround Hmain].
  assert (H0 : apple_off square_game).
  { exact (Hmain 0%nat [] [[]; []; []; [KEYDOWN K_UP]; [KEYDOWN K_LEFT]]
                 square_tape square_game [] eq_refl). }
  split; [exact H0|]. split.
  - exists {| snake := {| base := base Snake_init;
                          positions := [(340, 240)];
                          direction := RIGHT;
                          next_direction := None;
                          length := 1;
                          last := Some (320, 240) |};
              apple := {| position := (320, 240);
                          body_color := Some APPLE_COLOR |} |}.
    split; [reflexivity|].
    exact (Hmain 0%nat [] [] [16; 12] _ [] eq_refl).
  - exists {| snake := {| base := base (snake square_game);
                          positions := [(360, 220); (380, 220); (400, 220);
                                        (400, 240)];
                          direction := LEFT;
                          next_direction := None;
                          length := 4;
                          last := Some (380, 240) |};
              apple := apple square_game |}.
    split; [reflexivity|].
    exact (Hround 0%nat [] square_game [] _ [] H0 eq_refl).
Defined.

(** X8: a round in which the snake neither collides nor comes to lie on
    the apple returns whatever the generator and the fuel are, draws no
    random number and changes neither the apple nor [length]. *)
Theorem quiet_round :
  forall fuel events g t s1 t1 head rest,
    handle_keys events (snake g) t = Ok (s1, t1) ->
    positions (snake g) = head :: rest ->
    collides (update_direction s1) = false ->
    new_position head (direction (update_direction s1))
    <> position (apple g) ->
    exists g',
      main_iteration fuel events g t = Ok (g', t) /\
      apple g' = apple g /\
      length (snake g') = length (snake g) /\
      hd_error (positions (snake g'))
      = Some (new_position head (direction (update_direction s1))).
Proof.
  intros fuel events g t s1 t1 head rest Hk Hp Hc Hne.
  unfold main_iteration. rewrite (bind_eq _ _ _ _ _ Hk).
  apply handle_keys_fields in Hk.
  destruct Hk as [-> [_ [Hp1 [_ [Hl1 _]]]]].
  destruct (update_direction_fields s1) as [_ [Hpu [Hlu _]]].
  rewrite Hp1, Hp in Hpu. rewrite Hl1 in Hlu.
  destruct (move_free (update_direction s1) head rest t Hpu Hc)
    as [s2 [Hm [Hh [_ [Hl _]]]]].
  rewrite (bind_eq _ _ _ _ _ Hm).
  unfold check_apple, get_head_position. cbn [snake apple].
  destruct (positions s2) as [|h2 r2] eqn:Hp2; [discriminate|].
  injection Hh as ->.
  unfold bind at 1. unfold ret at 1.
  apply pair_eqb_neq in Hne. rewrite Hne.
  exists {| snake := s2; apple := apple g |}.
  split; [reflexivity|]. cbn [snake apple]. rewrite Hp2.
  split; [reflexivity|]. split; [congruence | reflexivity].
Qed.

Lemma quiet_round_witness :
  exists g',
    main_iteration 0 [KEYDOWN K_UP] square_game [] = Ok (g', []) /\
    apple g' = apple square_game /\
    length (snake g') = 4 /\
    hd_error (positions (snake g')) = Some (380, 200).
Proof.
  exact (quiet_round 0%nat [KEYDOWN K_UP] square_game []
           (handle_keydown K_UP (snake square_game)) []
           (380, 220) [(400, 220); (400, 240); (380, 240)]
           eq_refl eq_refl eq_refl ltac:(discriminate)).
Defined.

(** ** The generator's cells and directions *)

(** X9: whatever the generator draws, [randomize_position] (and so
    [Apple.__init__]) puts the apple on a cell of the board and keeps its
    colour; and every cell of the board is the outcome of some draws. *)
Theorem randomize_position_board :
  (forall a t a' t',
      randomize_position a t = Ok (a', t') ->
      on_board (position a') /\ body_color a' = body_color a) /\
  (forall t a t',
      Apple_init t = Ok (a, t') ->
      on_board (position a) /\ body_color a = Some APPLE_COLOR) /\
  (forall a c t,
      on_board c ->
      exists rx ry,
        randomize_position a (rx :: ry :: t)
        = Ok ({| position := c; body_color := body_color a |}, t)).
Proof.
  assert (H1 : forall a t a' t',
             randomize_position a t = Ok (a', t') ->
             on_board (position a') /\ body_color a' = body_color a).
  { intros a t a' t' Hr. apply randomize_position_ok in Hr.
    destruct Hr as [rx [ry [_ [-> Hc]]]].
    split; [apply cell_of_draws_on_board | exact Hc]. }
  split; [exact H1|]. split.
  - intros t a t' Hi. unfold Apple_init in Hi.
    apply H1 in Hi. exact Hi.
  - intros a c t [col [row [Hc [Hr ->]]]]. exists col, row.
    rewrite randomize_position_draws. unfold cell_of_draws. cbn [fst snd].
    rewrite !Z.mod_small by assumption. reflexivity.
Qed.

Lemma randomize_position_board_witness :
  (exists a, Apple_init [100; -1] = Ok (a, []) /\ on_board (position a)) /\
  exists rx ry,
    randomize_position (GameObject_init None None) [rx; ry]
    = Ok ({| position := (620, 460); body_color := None |}, []).
Proof.
  destruct randomize_position_board as [_ [Hinit Hall]].
  split.
  - exists {| position := (80, 460); body_color := Some APPLE_COLOR |}.
    split; [reflexivity|].
    exact (proj1 (Hinit [100; -1] _ [] eq_refl)).
  - apply (Hall (GameObject_init None None) (620, 460) []).
    exists 31, 23. change GRID_WIDTH with 32. change GRID_HEIGHT with 24.
    split; [lia|]. split; [lia | reflexivity].
Defined.

(** ** The board is a torus *)

Lemma new_position_back (head d : Pair) :
  on_screen head -> new_position (new_position head d) (opposite d) = head.
Proof.
  destruct head as [x y], d as [dx dy]. intros [Hx Hy].
  cbn [fst snd] in Hx, Hy. unfold new_position, opposite. cbn [fst snd].
  rewrite !Zplus_mod_idemp_l.
  replace (x + dx * GRID_SIZE + - dx * GRID_SIZE) with x by ring.
  replace (y + dy * GRID_SIZE + - dy * GRID_SIZE) with y by ring.
  rewrite !Z.mod_small by assumption. reflexivity.
Qed.

Lemma steps_formula (n : nat) (dx dy x y : Z) :
  on_screen (x, y) ->
  steps n (dx, dy) (x, y)
  = ((x + Z.of_nat n * dx * GRID_SIZE) mod SCREEN_WIDTH,
     (y + Z.of_nat n * dy * GRID_SIZE) mod SCREEN_HEIGHT).
Proof.
  intros [Hx Hy]. cbn [fst snd] in Hx, Hy.
  induction n as [|n IH].
  - change (steps 0 (dx, dy) (x, y)) with (x, y). change (Z.of_nat 0) with 0.
    rewrite !Z.mul_0_l, !Z.add_0_r, !Z.mod_small by assumption.
    reflexivity.
  - change (steps (S n) (dx, dy) (x, y))
      with (new_position (steps n (dx, dy) (x, y)) (dx, dy)).
    rewrite IH. unfold new_position.
    rewrite !Zplus_mod_idemp_l. rewrite Nat2Z.inj_succ.
    f_equal; f_equal; ring.
Qed.

(** X10: on the screen, a step in any direction followed by a step in
    the opposite direction leads back to the cell it started from, also
    across the edges of the board. *)
Theorem step_and_back :
  forall head d,
    on_screen head ->
    new_position (new_position head d) (opposite d) = head.
Proof. exact new_position_back. Qed.

Lemma step_and_back_witness :
  new_position (new_position (0, 460) LEFT) RIGHT = (0, 460) /\
  new_position (new_position (0, 460) DOWN) UP = (0, 460).
Proof.
  assert (H : on_screen (0, 460)).
  { unfold on_screen. cbn [fst snd]. change SCREEN_WIDTH with 640.
    change SCREEN_HEIGHT with 480. lia. }
  split.
  - exact (step_and_back (0, 460) LEFT H).
  - exact (step_and_back (0, 460) DOWN H).
Defined.

(** X11: [n] steps in one direction from a position on the screen lead to
    the position moved by [n] times the step, modulo the size of the
    screen; so [GRID_WIDTH] steps to the right or to the left and
    [GRID_HEIGHT] steps up or down lead back to where they started. *)
Theorem straight_steps :
  forall head,
    on_screen head ->
    (forall n dx dy,
        steps n (dx, dy) head
        = ((fst head + Z.of_nat n * dx * GRID_SIZE) mod SCREEN_WIDTH,
           (snd head + Z.of_nat n * dy * GRID_SIZE) mod SCREEN_HEIGHT)) /\
    steps (Z.to_nat GRID_WIDTH) RIGHT head = head /\
    steps (Z.to_nat GRID_WIDTH) LEFT head = head /\
    steps (Z.to_nat GRID_HEIGHT) UP head = head /\
    steps (Z.to_nat GRID_HEIGHT) DOWN head = head.
Proof.
  intros [x y] Hs. pose proof Hs as [Hx Hy]. cbn [fst snd] in *.
  split; [intros n dx dy; apply steps_formula; exact Hs|].
  unfold RIGHT, LEFT, UP, DOWN. rewrite !steps_formula by exact Hs.
  change (Z.of_nat (Z.to_nat GRID_WIDTH) * 1 * GRID_SIZE)
    with (1 * SCREEN_WIDTH).
  change (Z.of_nat (Z.to_nat GRID_WIDTH) * -1 * GRID_SIZE)
    with (-1 * SCREEN_WIDTH).
  change (Z.of_nat (Z.to_nat GRID_HEIGHT) * 1 * GRID_SIZE)
    with (1 * SCREEN_HEIGHT).
  change (Z.of_nat (Z.to_nat GRID_HEIGHT) * -1 * GRID_SIZE)
    with (-1 * SCREEN_HEIGHT).
  change (Z.of_nat (Z.to_nat GRID_WIDTH) * 0 * GRID_SIZE) with 0.
  change (Z.of_nat (Z.to_nat GRID_HEIGHT) * 0 * GRID_SIZE) with 0.
  rewrite !Z.mod_add by discriminate. rewrite !Z.add_0_r.
  rewrite !Z.mod_small by assumption. auto.
Qed.

Lemma straight_steps_witness :
  steps 32 RIGHT (320, 240) = (320, 240) /\
  steps 24 UP (320, 240) = (320, 240) /\
  steps 5 LEFT (40, 0) = (580, 0).
Proof.
  assert (H : on_screen (320, 240)).
  { unfold on_screen. cbn [fst snd]. change SCREEN_WIDTH with 640.
    change SCREEN_HEIGHT with 480. lia. }
  assert (H' : on_screen (40, 0)).
  { unfold on_screen. cbn [fst snd]. change SCREEN_WIDTH with 640.
    change SCREEN_HEIGHT with 480. lia. }
  destruct (straight_steps (320, 240) H) as [_ [Hr [_ [Hu _]]]].
  destruct (straight_steps (40, 0) H') as [Hf _].
  split; [exact Hr|]. split; [exact Hu|].
  exact (eq_trans (Hf 5%nat (-1) 0) eq_refl).
Defined.

(** ** What is drawn *)

Lemma last_position_last (head : Pair) (rest : list Pair) :
  last_position (head :: rest) = Some (List.last rest head).
Proof.
  unfold last_position. rewrite len_cons.
  pose proof (len_nonneg rest) as Hl.
  destruct (0 <? len rest + 1) eqn:E; [|apply Z.ltb_ge in E; lia].
  replace (len rest + 1 - 1) with (len rest) by lia.
  unfold len. rewrite Nat2Z.id. clear. revert head.
  induction rest as [|x rest IH]; intros head; [reflexivity|].
  rewrite last_cons_default. exact (IH x).
Qed.

Lemma move_free_fields (s s' : Snake) (head : Pair) (rest : list Pair)
      (t t' : Tape) :
  positions s = head :: rest ->
  collides s = false ->
  move s t = Ok (s', t') ->
  t' = t /\
  base s' = base s /\
  positions s'
  = (if len (new_position head (direction s) :: head :: rest) >? length s
     then new_position head (direction s) :: removelast (head :: rest)
     else new_position head (direction s) :: head :: rest) /\
  last s' = Some (List.last rest head) /\
  length s' = length s.
Proof.
  intros Hp Hc Hm. rewrite (move_eq s head rest t Hp), Hc in Hm.
  rewrite last_position_last in Hm.
  injection Hm as <- <-. repeat split.
Qed.

Lemma body_cmds_in (color : option Color) (c : Pair) (ps : list Pair) :
  In c ps ->
  In (draw_rect color c (GRID_SIZE, GRID_SIZE) 0)
     (flat_map
        (fun pos =>
           [draw_rect color pos (GRID_SIZE, GRID_SIZE) 0;
            draw_rect (Some (255, 255, 255)) pos (GRID_SIZE, GRID_SIZE) 1])
        ps).
Proof.
  intros Hin. apply in_flat_map. exists c. split; [exact Hin|].
  left. reflexivity.
Qed.

Lemma body_cmds_not_in (color : option Color) (c : Pair) (ps : list Pair) :
  ~ In c ps ->
  forall col size width,
    ~ In (draw_rect col c size width)
         (flat_map
            (fun pos =>
               [draw_rect color pos (GRID_SIZE, GRID_SIZE) 0;
                draw_rect (Some (255, 255, 255)) pos
                          (GRID_SIZE, GRID_SIZE) 1])
            ps).
Proof.
  intros Hno col size width Hin. apply in_flat_map in Hin.
  destruct Hin as [pos [Hpos [E | [E | []]]]];
    injection E as _ -> _ _; contradiction.
Qed.

(** X12: in a [move] without collision that finds the body shorter than
    [length], no tail is taken off, yet the old tail is recorded as the
    cell to erase: [Snake.draw] then draws that cell as a cell of the
    body and, as its last call, paints it over with the colour of the
    background. *)
Theorem growth_move_erases_tail :
  forall s head rest t s' t',
    positions s = head :: rest ->
    collides s = false ->
    len (positions s) < length s ->
    move s t = Ok (s', t') ->
    positions s' = new_position head (direction s) :: head :: rest /\
    last s' = Some (List.last rest head) /\
    In (List.last rest head) (positions s') /\
    exists cmds,
      Snake_draw s'
      = cmds ++ [draw_rect (Some BOARD_BACKGROUND_COLOR)
                           (List.last rest head)
                           (GRID_SIZE, GRID_SIZE) 0] /\
      In (draw_rect (body_color (base s')) (List.last rest head)
                    (GRID_SIZE, GRID_SIZE) 0) cmds.
Proof.
  intros s head rest t s' t' Hp Hc Hlt Hm.
  destruct (move_free_fields s s' head rest t t' Hp Hc Hm)
    as [_ [_ [Hps [Hla _]]]].
  rewrite Hp in Hlt.
  assert (Hps' : positions s'
                 = new_position head (direction s) :: head :: rest).
  { rewrite Hps.
    destruct (Z.gtb_spec
                (len (new_position head (direction s) :: head :: rest))
                (length s)) as [Hgt|_]; [|reflexivity].
    rewrite len_cons in Hgt. lia. }
  assert (Hin : In (List.last rest head) (positions s')).
  { rewrite Hps'. right. apply last_In_cons. }
  split; [exact Hps'|]. split; [exact Hla|]. split; [exact Hin|].
  unfold Snake_draw. rewrite Hla. eexists. split; [reflexivity|].
  apply body_cmds_in. exact Hin.
Qed.

Lemma growth_move_erases_tail_witness :
  exists s',
    move (snake fed_game) [] = Ok (s', []) /\
    positions s' = [(360, 240); (340, 240)] /\
    last s' = Some (340, 240) /\
    exists cmds,
      Snake_draw s'
      = cmds ++ [draw_rect (Some BOARD_BACKGROUND_COLOR) (340, 240)
                           (GRID_SIZE, GRID_SIZE) 0] /\
      In (draw_rect (body_color (base s')) (340, 240)
                    (GRID_SIZE, GRID_SIZE) 0) cmds.
Proof.
  exists {| base := base (snake fed_game);
            positions := [(360, 240); (340, 240)];
            direction := RIGHT;
            next_direction := None;
            length := 2;
            last := Some (340, 240) |}.
  split; [reflexivity|].
  destruct (growth_move_erases_tail (snake fed_game) (340, 240) [] [] _ []
              eq_refl eq_refl eq_refl eq_refl)
    as [Hps [Hla [_ Hcmds]]].
  split; [exact Hps|]. split; [exact Hla | exact Hcmds].
Defined.

(** X13: in a [move] of a run of [main] that does not collide and finds
    the body as long as [length], the tail is taken off and recorded as
    the cell to erase; that cell is no cell of the new body, and
    [Snake.draw] draws nothing on it but, as its last call, the colour of
    the background. *)
Theorem full_move_erases_free_cell :
  forall g head rest t s' t',
    at_point BeforeMove g ->
    positions (snake g) = head :: rest ->
    collides (snake g) = false ->
    length (snake g) <= len (positions (snake g)) ->
    move (snake g) t = Ok (s', t') ->
    positions s'
    = new_position head (direction (snake g)) :: removelast (head :: rest) /\
    last s' = Some (List.last rest head) /\
    ~ In (List.last rest head) (positions s') /\
    exists cmds,
      Snake_draw s'
      = cmds ++ [draw_rect (Some BOARD_BACKGROUND_COLOR)
                           (List.last rest head)
                           (GRID_SIZE, GRID_SIZE) 0] /\
      forall col size width,
        ~ In (draw_rect col (List.last rest head) size width) cmds.
Proof.
  intros g head rest t s' t' Hat Hp Hc Hle Hm.
  destruct (at_point_sound _ _ Hat) as [Hd [_ [Hb [Hnd _]]]].
  destruct (move_free_fields _ s' head rest t t' Hp Hc Hm)
    as [_ [_ [Hps [Hla _]]]].
  rewrite Hp in Hle, Hb, Hnd.
  assert (Hps' : positions s'
                 = new_position head (direction (snake g))
                   :: removelast (head :: rest)).
  { rewrite Hps.
    destruct (Z.gtb_spec
                (len (new_position head (direction (snake g))
                      :: head :: rest))
                (length (snake g))) as [_|Hno]; [reflexivity|].
    rewrite len_cons in Hno. lia. }
  assert (Hfresh : ~ In (new_position head (direction (snake g)))
                     (head :: rest)).
  { intros [E | Hin].
    - assert (Hhead : on_board head) by (inversion Hb; assumption).
      exact (new_position_moves head _ Hhead Hd (eq_sym E)).
    - rewrite (collides_cons _ head rest Hp) in Hc.
      apply mem_In in Hin. congruence. }
  assert (Hout : ~ In (List.last rest head) (positions s')).
  { rewrite Hps'. intros [E | Hin].
    - apply Hfresh. rewrite E. apply last_In_cons.
    - rewrite <- (last_cons_default head rest head) in Hin.
      exact (last_not_in_removelast (head :: rest) head
                                    ltac:(discriminate) Hnd Hin). }
  split; [exact Hps'|]. split; [exact Hla|]. split; [exact Hout|].
  unfold Snake_draw. rewrite Hla. eexists. split; [reflexivity|].
  apply body_cmds_not_in. exact Hout.
Qed.

Lemma full_move_erases_free_cell_witness :
  exists s',
    move (update_direction (snake square_game)) [] = Ok (s', []) /\
    positions s' = [(360, 220); (380, 220); (400, 220); (400, 240)] /\
    last s' = Some (380, 240) /\
    ~ In (380, 240) (positions s').
Proof.
  exists {| base := base (snake square_game);
            positions := [(360, 220); (380, 220); (400, 220); (400, 240)];
            direction := LEFT;
            next_direction := None;
            length := 4;
            last := Some (380, 240) |}.
  split; [reflexivity|].
  pose proof (main_at_point 0%nat square_inputs square_tape []
                            square_game eq_refl) as H0.
  pose proof (at_update _ (at_keys square_game [] [] _ [] H0 eq_refl))
    as H2.
  destruct (full_move_erases_free_cell _ (380, 220)
              [(400, 220); (400, 240); (380, 240)] [] _ []
              H2 eq_refl eq_refl ltac:(vm_compute; discriminate) eq_refl)
    as [Hps [Hla [Hout _]]].
  split; [exact Hps|]. split; [exact Hla | exact Hout].
Defined.

Lemma at_point_last (p : Point) (g : Game) :
  at_point p g ->
  match last (snake g) with
  | Some l => on_board l
  | None => True
  end.
Proof.
  induction 1 as [t g t' Hs | g events t s t' Hat IH Hk | g Hat IH
                 | g t s t' Hat IH Hm | c g fuel t g' t' Hat IH Hc];
    cbn [snake] in *.
  - apply main_setup_ok in Hs. destruct Hs as [-> _]. exact I.
  - apply handle_keys_fields in Hk.
    destruct Hk as [_ [_ [_ [_ [_ [-> _]]]]]]. exact IH.
  - destruct (update_direction_fields (snake g)) as [_ [_ [_ ->]]].
    exact IH.
  - destruct (at_point_sound _ _ Hat) as [_ [_ [Hb _]]].
    destruct (positions (snake g)) as [|head rest] eqn:Hp.
    + rewrite (move_empty _ t Hp) in Hm. discriminate.
    + destruct (collides (snake g)) eqn:Hcol.
      * rewrite (move_eq _ head rest t Hp), Hcol in Hm.
        apply reset_ok in Hm. destruct Hm as [r [d [_ [_ ->]]]].
        exact IH.
      * destruct (move_free_fields _ s head rest t t' Hp Hcol Hm)
          as [_ [_ [_ [-> _]]]].
        rewrite Forall_forall in Hb. apply Hb. apply last_In_cons.
  - apply check_apple_inv in Hc.
    destruct Hc as [head [rest [_ [[_ [-> _]] | [_ [-> _]]]]]]; exact IH.
Qed.

Lemma len_app {A : Type} (l1 l2 : list A) : len (l1 ++ l2) = len l1 + len l2.
Proof. unfold len. rewrite length_app. lia. Qed.

Lemma len_body_cmds (color : option Color) (ps : list Pair) :
  len (flat_map
         (fun pos =>
            [draw_rect color pos (GRID_SIZE, GRID_SIZE) 0;
             draw_rect (Some (255, 255, 255)) pos (GRID_SIZE, GRID_SIZE) 1])
         ps)
  = 2 * len ps.
Proof.
  induction ps as [|c ps IH]; [reflexivity|].
  cbn [flat_map app]. rewrite !len_cons, IH. lia.
Qed.

(** X14: what a round of a run of [main] draws after filling the window
    are rectangles of one cell each, on cells of the board: two for each
    cell of the body, one for the cell to erase if there is one, and two
    for the apple. *)
Theorem frame_on_board :
  forall p g,
    at_point p g ->
    Forall cmd_on_board (main_frame g) /\
    len (main_frame g)
    = 2 * len (positions (snake g))
      + match last (snake g) with Some _ => 1 | None => 0 end
      + 3.
Proof.
  intros p g Hat.
  destruct (at_point_sound _ _ Hat) as [_ [_ [Hb [_ Ha]]]].
  pose proof (at_point_last _ _ Hat) as Hl.
  split.
  - unfold main_frame. constructor; [exact I|].
    apply Forall_app. split; [|repeat constructor; exact Ha].
    unfold Snake_draw. apply Forall_app. split.
    + apply Forall_forall. intros cmd Hin. apply in_flat_map in Hin.
      destruct Hin as [pos [Hpos Hcmd]].
      rewrite Forall_forall in Hb. specialize (Hb pos Hpos).
      destruct Hcmd as [<- | [<- | []]]; split; auto.
    + destruct (last (snake g)); repeat constructor. exact Hl.
  - unfold main_frame, Snake_draw.
    rewrite len_cons, !len_app, len_body_cmds.
    destruct (last (snake g)); unfold Apple_draw; rewrite ?len_cons;
      change (len (@nil DrawCmd)) with 0; lia.
Qed.

Lemma frame_on_board_witness :
  Forall cmd_on_board (main_frame square_game) /\
  len (main_frame square_game) = 12.
Proof.
  exact (frame_on_board BeforeKeys square_game
           (main_at_point 0%nat square_inputs square_tape []
                          square_game eq_refl)).
Defined.

(** ** The snake and its neck *)

Lemma cardinal_opposite (d : Pair) : cardinal d -> cardinal (opposite d).
Proof.
  unfold cardinal.
  intros [<- | [<- | [<- | [<- | []]]]]; simpl; auto.
Qed.

Lemma new_position_dir_inj (head d1 d2 : Pair) :
  on_board head -> cardinal d1 -> cardinal d2 ->
  new_position head d1 = new_position head d2 -> d1 = d2.
Proof.
  intros [col [row [Hc [Hr ->]]]] H1 H2 E.
  change GRID_WIDTH with 32 in Hc. change GRID_HEIGHT with 24 in Hr.
  destruct H1 as [<- | [<- | [<- | [<- | []]]]];
    destruct H2 as [<- | [<- | [<- | [<- | []]]]];
    try reflexivity; exfalso;
    unfold UP, DOWN, LEFT, RIGHT in E; rewrite !new_position_grid in E;
    change GRID_WIDTH with 32 in E; change GRID_HEIGHT with 24 in E;
    change GRID_SIZE with 20 in E; injection E; intros;
    Z.to_euclidean_division_equations; lia.
Qed.

Lemma parity_step (head d : Pair) :
  on_board head -> cardinal d -> parity (new_position head d) <> parity head.
Proof.
  intros [col [row [Hc [Hr ->]]]] Hd.
  change GRID_WIDTH with 32 in Hc. change GRID_HEIGHT with 24 in Hr.
  destruct Hd as [<- | [<- | [<- | [<- | []]]]];
    unfold UP, DOWN, LEFT, RIGHT; rewrite new_position_grid;
    unfold parity; cbn [fst snd];
    change GRID_WIDTH with 32; change GRID_HEIGHT with 24;
    rewrite <- !Z.mul_add_distr_r, !Z.div_mul by discriminate;
    Z.to_euclidean_division_equations; lia.
Qed.

Lemma parity_third (a b c : Pair) :
  parity a <> parity b -> parity b <> parity c -> parity a = parity c.
Proof.
  unfold parity. intros Hab Hbc.
  Z.to_euclidean_division_equations. lia.
Qed.

Lemma alternating_removelast (ps : list Pair) :
  alternating ps -> alternating (removelast ps).
Proof.
  induction ps as [|a ps IH]; intros H; [exact I|].
  destruct ps as [|b [|c ps]]; try exact I.
  change (removelast (a :: b :: c :: ps))
    with (a :: b :: removelast (c :: ps)).
  destruct H as [Hab Hrest]. split; [exact Hab|].
  exact (IH Hrest).
Qed.

Lemma at_point_shape (p : Point) (g : Game) :
  at_point p g ->
  alternating (positions (snake g)) /\ neck_ok p (snake g).
Proof.
  induction 1 as [t g t' Hs | g events t s t' Hat IH Hk | g Hat IH
                 | g t s t' Hat IH Hm | c g fuel t g' t' Hat IH Hc];
    cbn [snake] in *.
  - apply main_setup_ok in Hs. destruct Hs as [-> _]. split; exact I.
  - apply handle_keys_fields in Hk.
    destruct Hk as [_ [_ [Hp [Hd _]]]].
    unfold neck_ok in *. rewrite Hp, Hd. exact IH.
  - destruct (at_point_sound _ _ Hat) as [Hd [Hpend [Hb _]]].
    destruct IH as [Halt Hneck].
    destruct (update_direction_fields (snake g)) as [_ [Hp _]].
    rewrite Hp. split; [exact Halt|].
    unfold neck_ok in *. rewrite Hp.
    destruct (positions (snake g)) as [|head [|neck rest]]; try exact I.
    assert (Hhead : on_board head) by (inversion Hb; assumption).
    unfold pending_ok in Hpend. unfold update_direction.
    destruct (next_direction (snake g)) as [d'|]; cbn [direction];
      rewrite Hneck; intros E;
      apply new_position_dir_inj in E; try assumption;
      try (apply cardinal_opposite; assumption).
    + destruct Hpend as [_ [_ Hne]]. apply Hne. rewrite E.
      symmetry. apply opposite_involutive.
    + destruct Hpend as [_ [Hcard _]]. exact Hcard.
    + exact (cardinal_not_self_opposite _ Hd E).
  - destruct (at_point_sound _ _ Hat) as [Hd [_ [Hb _]]].
    destruct IH as [Halt _].
    destruct (positions (snake g)) as [|head rest] eqn:Hp.
    + rewrite (move_empty _ t Hp) in Hm. discriminate.
    + destruct (collides (snake g)) eqn:Hcol.
      * rewrite (move_eq _ head rest t Hp), Hcol in Hm.
        apply reset_ok in Hm. destruct Hm as [r [d [_ [_ ->]]]].
        split; exact I.
      * assert (Hhead : on_board head) by (inversion Hb; assumption).
        destruct (move_free _ head rest t Hp Hcol)
          as [s0 [Hm0 [_ [Hps [_ [Hd0 _]]]]]].
        rewrite Hm0 in Hm. injection Hm as <- _.
        assert (Hfull : alternating
                          (new_position head (direction (snake g))
                           :: head :: rest)).
        { split; [|exact Halt]. apply parity_step; assumption. }
        assert (Hback : head
                        = new_position
                            (new_position head (direction (snake g)))
                            (opposite (direction (snake g)))).
        { symmetry. apply new_position_back.
          apply on_board_on_screen. exact Hhead. }
        unfold neck_ok. rewrite Hd0.
        destruct Hps as [-> | ->].
        -- split; [exact Hfull | exact Hback].
        -- split; [exact (alternating_removelast _ Hfull)|].
           destruct rest as [|y rest']; [exact I | exact Hback].
  - apply check_apple_inv in Hc.
    destruct Hc as [head [rest [_ [[_ [-> _]] | [_ [-> _]]]]]];
      [exact IH|].
    unfold neck_ok in *. cbn [grow positions direction]. exact IH.
Qed.

(** X15: in a run of [main] the cell a [move] leads to is never the
    second cell of the body: the snake does not turn back into its neck,
    and a snake of two cells does not collide. *)
Theorem never_hits_neck :
  forall g head neck rest,
    at_point BeforeMove g ->
    positions (snake g) = head :: neck :: rest ->
    new_position head (direction (snake g)) <> neck /\
    (rest = [] -> collides (snake g) = false).
Proof.
  intros g head neck rest Hat Hp.
  destruct (at_point_shape _ _ Hat) as [_ Hneck].
  unfold neck_ok in Hneck. rewrite Hp in Hneck.
  split; [exact Hneck|].
  intros ->. rewrite (collides_cons _ _ _ Hp). cbn [mem existsb].
  apply pair_eqb_neq in Hneck. rewrite Hneck. reflexivity.
Qed.

Lemma never_hits_neck_witness :
  new_position (380, 220) DOWN <> (400, 220) /\
  collides (mkSnake (base Snake_init) [(360, 240); (340, 240)] RIGHT None 3
                    (Some (340, 240))) = false.
Proof.
  pose proof (main_at_point 0%nat square_inputs square_tape []
                            square_game eq_refl) as H0.
  pose proof (at_update _ (at_keys square_game [KEYDOWN K_DOWN] [] _ []
                                   H0 eq_refl)) as H2.
  pose (g2 := mkGame (mkSnake (base Snake_init) [(360, 240); (340, 240)]
                              RIGHT None 3 (Some (340, 240)))
                     (mkGameObject (0, 0) (Some APPLE_COLOR))).
  pose proof (main_at_point 0%nat [[]; []] [17; 12; 18; 12; 0; 0] []
                            g2 eq_refl) as H0'.
  pose proof (at_update _ (at_keys g2 [] [] _ [] H0' eq_refl)) as H2'.
  split.
  - exact (proj1 (never_hits_neck _ (380, 220) (400, 220)
                    [(400, 240); (380, 240)] H2 eq_refl)).
  - exact (proj2 (never_hits_neck _ (360, 240) (340, 240) [] H2' eq_refl)
                 eq_refl).
Defined.

(** X16: in a run of [main] a [move] of a snake of three cells or fewer
    never collides: a reset needs a body of four cells at least.  Four is
    enough: the snake of [square_game], turned down, is at a [move] of a
    run, has four cells and collides. *)
Theorem short_snake_never_collides :
  (forall g,
      at_point BeforeMove g ->
      len (positions (snake g)) <= 3 ->
      collides (snake g) = false) /\
  (exists g,
      at_point BeforeMove g /\
      len (positions (snake g)) = 4 /\
      collides (snake g) = true).
Proof.
  split.
  - intros g Hat Hlen.
    destruct (at_point_sound _ _ Hat) as [Hd [_ [Hb _]]].
    destruct (at_point_shape _ _ Hat) as [Halt Hneck].
    unfold neck_ok in Hneck. unfold collides.
    destruct (positions (snake g)) as [|head [|neck [|third [|x rest]]]];
      try reflexivity.
    + cbn [mem existsb]. apply pair_eqb_neq in Hneck.
      rewrite Hneck. reflexivity.
    + assert (Hhead : on_board head) by (inversion Hb; assumption).
      destruct Halt as [H1 [H2 _]].
      cbn [mem existsb]. apply pair_eqb_neq in Hneck. rewrite Hneck.
      cbn [orb].
      assert (Hne : new_position head (direction (snake g)) <> third).
      { intros E.
        pose proof (parity_step head _ Hhead Hd) as Hstep.
        rewrite E in Hstep. apply Hstep. symmetry.
        exact (parity_third _ _ _ H1 H2). }
      apply pair_eqb_neq in Hne. rewrite Hne. reflexivity.
    + rewrite !len_cons in Hlen. pose proof (len_nonneg rest). lia.
  - exists {| snake := square_snake; apple := apple square_game |}.
    split; [|split; reflexivity].
    exact (at_update _ (at_keys square_game [KEYDOWN K_DOWN] [] _ []
             (main_at_point 0%nat square_inputs square_tape []
                            square_game eq_refl) eq_refl)).
Qed.

Lemma short_snake_never_collides_witness :
  collides (update_direction (snake fed_game)) = false.
Proof.
  apply (proj1 short_snake_never_collides
           {| snake := update_direction (snake fed_game);
              apple := apple fed_game |}).
  - exact (at_update _ (at_keys fed_game [] [] _ []
             (main_at_point 0%nat [[]] [17; 12; 18; 12] [] fed_game
                            eq_refl) eq_refl)).
  - vm_compute. discriminate.
Defined.
